(** * connect-es-http-paths: the proto annotation parser (src/parser.ts)

    A shallow embedding of [parseProtoFile] and the functions it is built
    from, together with the part of the JavaScript [RegExp] and [String]
    semantics these functions rely on.

    Strings are sequences of UTF-16 code units, as in JavaScript.  The
    [while ((match = re.exec(s)) !== null)] loops are modelled with an
    iteration budget: a loop that exhausts it yields [None]; the functions
    that run such a loop return in [option]. *)

From Stdlib Require Import String Ascii.
From Stdlib Require Import List NArith ZArith Bool Arith Lia.
Import ListNotations.

Set Implicit Arguments.

(** ** Strings *)

Module Js.

(** A UTF-16 code unit. *)
Definition cu := N.

(** A JavaScript string. *)
Definition jsstring := list cu.

(** A source literal: every character of the literals of parser.ts is ASCII. *)
Fixpoint str (s : string) : jsstring :=
  match s with
  | EmptyString => []
  | String a s' => N_of_ascii a :: str s'
  end.

(** The double quote, U+0022. *)
Definition dq : cu := 34%N.

(** Truthiness of a string: [if (s)] holds for the non-empty ones. *)
Definition truthy (s : jsstring) : bool :=
  match s with [] => false | _ :: _ => true end.

(** [s.startsWith(p)] on code units. *)
Fixpoint startsWith (p s : jsstring) : bool :=
  match p, s with
  | [], _ => true
  | _ :: _, [] => false
  | a :: p', b :: s' => N.eqb a b && startsWith p' s'
  end.

(** [s.includes(p)]. *)
Fixpoint includes (p s : jsstring) : bool :=
  startsWith p s ||
  match s with
  | [] => false
  | _ :: s' => includes p s'
  end.

(** [s.slice(start, end)]: a negative index counts from the end, both are
    clamped to the string, and an empty string results when they cross. *)
Definition clampIndex (len k : Z) : Z :=
  if (k <? 0)%Z then Z.max (len + k) 0 else Z.min k len.

Definition slice (s : jsstring) (start end_ : Z) : jsstring :=
  let len := Z.of_nat (length s) in
  let from := clampIndex len start in
  let to := clampIndex len end_ in
  firstn (Z.to_nat (Z.max (to - from) 0)) (skipn (Z.to_nat from) s).

(** [String.prototype.toLowerCase] on the ASCII range; parser.ts applies
    it to the five verb names only. *)
Definition lowerCu (c : cu) : cu :=
  if (N.leb 65 c && N.leb c 90)%N then (c + 32)%N else c.

Definition toLowerCase (s : jsstring) : jsstring := map lowerCu s.

End Js.

Import Js.

(** ** Regular expressions

    The patterns of parser.ts are sequences of single-character atoms,
    greedy [*] and [+] over such atoms, capture groups and the [^]
    assertion.  [run] is the backtracking matcher of ECMAScript restricted
    to these forms: a quantifier first takes as many characters as it can
    and gives them back one by one when the rest of the pattern fails. *)

Module Re.

Section Classes.
Local Open Scope N_scope.

(** Character classes. *)
Definition inRange (lo hi c : cu) : bool := N.leb lo c && N.leb c hi.

(** [\w] *)
Definition isWord (c : cu) : bool :=
  inRange 97 122 c || inRange 65 90 c || inRange 48 57 c || N.eqb c 95.

(** [\s]: WhiteSpace and LineTerminator code points. *)
Definition isSpace (c : cu) : bool :=
  inRange 9 13 c || N.eqb c 32 || N.eqb c 160 || N.eqb c 5760 ||
  inRange 8192 8202 c || N.eqb c 8232 || N.eqb c 8233 || N.eqb c 8239 ||
  N.eqb c 8287 || N.eqb c 12288 || N.eqb c 65279.

(** LineTerminator: LF, CR, LS, PS. *)
Definition isLineTerminator (c : cu) : bool :=
  N.eqb c 10 || N.eqb c 13 || N.eqb c 8232 || N.eqb c 8233.

(** [[\w.]] *)
Definition isWordOrDot (c : cu) : bool := isWord c || N.eqb c 46.

(** The members of the bracket class of the double and the single quote
    (and of its negation, which inverts it). *)
Definition isQuote (c : cu) : bool := N.eqb c 34 || N.eqb c 39.

(** Canonicalize of the [i] flag without the [u] flag: the upper-case
    mapping, except that a code unit outside ASCII never maps into ASCII.
    Every pattern character and class member of parser.ts is ASCII or has
    no case, so the mapping is needed on ASCII letters only. *)
Definition canonicalize (c : cu) : cu :=
  if inRange 97 122 c then c - 32 else c.

End Classes.

(** A pattern atom consumes one code unit. *)
Inductive atom :=
| Chr (c : cu)                          (* a pattern character *)
| Cls (invert : bool) (p : cu -> bool). (* a class escape or bracket class *)

Inductive node :=
| One (a : atom)        (* a      *)
| Star (a : atom)       (* a*     *)
| Plus (a : atom)       (* a+     *)
| Open (n : nat)        (* (  of group n *)
| Close (n : nat)       (* )  of group n *)
| Bol.                  (* ^      *)

Record RegExp := mkRegExp {
  source : list node;
  ignoreCase : bool;
  multiline : bool;
  global : bool
}.

(** Capture state: where the open groups started and what the closed ones
    captured. *)
Record caps := mkCaps {
  opened : list (nat * nat);
  closed : list (nat * jsstring)
}.

Definition noCaps : caps := mkCaps [] [].

Fixpoint assoc {A} (n : nat) (l : list (nat * A)) : option A :=
  match l with
  | [] => None
  | (k, v) :: l' => if Nat.eqb k n then Some v else assoc n l'
  end.

Definition substring (s : jsstring) (from to : nat) : jsstring :=
  firstn (to - from) (skipn from s).

Section Matcher.

Variable re : RegExp.
(** The input from the position where the match attempt starts;
    positions below are relative to it. *)
Variable s0 : jsstring.

(** CharacterSetMatcher.  With the [i] flag a pattern character matches
    when the two canonical forms agree, and a class when it has a member
    with the canonical form of the input (the input itself or its other
    case); the inversion of a negated class comes last. *)
Definition atomMatches (a : atom) (ch : cu) : bool :=
  match a with
  | Chr c =>
      if ignoreCase re then N.eqb (canonicalize c) (canonicalize ch)
      else N.eqb c ch
  | Cls invert p =>
      xorb invert
        (if ignoreCase re
         then p ch || p (canonicalize ch) || p (lowerCu ch)
         else p ch)
  end.

(** [^]: at the start of the input, or with the [m] flag after a line
    terminator.  [prev] is the code unit before the current position. *)
Definition atLineStart (prev : option cu) : bool :=
  match prev with
  | None => true
  | Some c => multiline re && isLineTerminator c
  end.

Definition openGroup (n pos : nat) (c : caps) : caps :=
  mkCaps ((n, pos) :: opened c) (closed c).

Definition closeGroup (n pos : nat) (c : caps) : caps :=
  match assoc n (opened c) with
  | Some from => mkCaps (opened c) ((n, substring s0 from pos) :: closed c)
  | None => c
  end.

(** A continuation: position, previous code unit, remaining input,
    captures. *)
Definition cont := nat -> option cu -> jsstring -> caps -> option (nat * caps).

(** Greedy repetition of an atom; [need] asks for one more occurrence
    at least. *)
Fixpoint greedy (a : atom) (k : cont) (need : bool)
         (pos : nat) (prev : option cu) (rest : jsstring) (c : caps)
  : option (nat * caps) :=
  match rest with
  | ch :: rest' =>
      if atomMatches a ch then
        match greedy a k false (S pos) (Some ch) rest' c with
        | Some r => Some r
        | None => if need then None else k pos prev rest c
        end
      else if need then None else k pos prev rest c
  | [] => if need then None else k pos prev rest c
  end.

Fixpoint run (r : list node) {struct r} : cont :=
  fun pos prev rest c =>
    match r with
    | [] => Some (pos, c)
    | One a :: r' =>
        match rest with
        | ch :: rest' =>
            if atomMatches a ch then run r' (S pos) (Some ch) rest' c
            else None
        | [] => None
        end
    | Star a :: r' => greedy a (run r') false pos prev rest c
    | Plus a :: r' => greedy a (run r') true pos prev rest c
    | Open n :: r' => run r' pos prev rest (openGroup n pos c)
    | Close n :: r' => run r' pos prev rest (closeGroup n pos c)
    | Bol :: r' => if atLineStart prev then run r' pos prev rest c else None
    end.

End Matcher.

(** One match attempt at a fixed position: the length of the match and
    the captures. *)
Definition matchHere (re : RegExp) (prev : option cu) (s : jsstring)
  : option (nat * caps) :=
  run re s (source re) 0 prev s noCaps.

(** The match array: [index], [m[0]] and the groups. *)
Record MatchResult := mkMatch {
  index : nat;
  matched : jsstring;
  groups : list (nat * jsstring)
}.

(** [m[n]] for a group [n >= 1]. *)
Definition group (m : MatchResult) (n : nat) : option jsstring :=
  assoc n (groups m).

(** RegExpBuiltinExec: the first position from [idx] on where the pattern
    matches; [s] is the input from [idx] and [prev] the code unit before
    it. *)
Fixpoint searchFrom (re : RegExp) (idx : nat) (prev : option cu) (s : jsstring)
  : option MatchResult :=
  match matchHere re prev s with
  | Some (len, c) => Some (mkMatch idx (firstn len s) (closed c))
  | None =>
      match s with
      | [] => None
      | ch :: s' => searchFrom re (S idx) (Some ch) s'
      end
  end.

Definition charBefore (s : jsstring) (i : nat) : option cu :=
  match i with
  | 0 => None
  | S j => nth_error s j
  end.

(** [re.exec(s)] with the regexp's [lastIndex] passed explicitly: the
    result and the new [lastIndex].  Without the [g] flag the search starts
    at 0 and [lastIndex] is left alone. *)
Definition exec (re : RegExp) (lastIndex : nat) (s : jsstring)
  : option MatchResult * nat :=
  let start := if global re then lastIndex else 0 in
  if Nat.ltb (length s) start then (None, if global re then 0 else lastIndex)
  else
    match searchFrom re start (charBefore s start) (skipn start s) with
    | Some m =>
        (Some m, if global re then index m + length (matched m) else lastIndex)
    | None => (None, if global re then 0 else lastIndex)
    end.

(** [s.match(re)] for a regexp without the [g] flag. *)
Definition strMatch (s : jsstring) (re : RegExp) : option MatchResult :=
  fst (exec re 0 s).

(** Pattern characters of a literal. *)
Definition lit (s : string) : list node := map (fun c => One (Chr c)) (str s).

Definition space : atom := Cls false isSpace.
Definition word : atom := Cls false isWord.
Definition wordOrDot : atom := Cls false isWordOrDot.
Definition quote : atom := Cls false isQuote.
Definition notQuote : atom := Cls true isQuote.

End Re.

Import Re.

(** [m[n]]; every group of the patterns of parser.ts takes part in every
    match (lemma [capture_closed] below), so [undefined] is not modelled. *)
Definition capture (m : MatchResult) (n : nat) : jsstring :=
  match group m n with
  | Some s => s
  | None => []
  end.

(** The loop [while ((match = re.exec(s)) !== null) { acc = step match acc }]
    on a regexp created with [lastIndex = 0]; [None] when the iteration
    budget runs out. *)
Fixpoint whileExec {A} (fuel : nat) (re : RegExp) (s : jsstring)
         (step : MatchResult -> A -> A) (lastIndex : nat) (acc : A) : option A :=
  match fuel with
  | 0 => None
  | S fuel' =>
      match exec re lastIndex s with
      | (Some m, lastIndex') => whileExec fuel' re s step lastIndex' (step m acc)
      | (None, _) => Some acc
      end
  end.

Notation "x <- e ;; k" :=
  (match e with Some x => k | None => None end)
  (at level 61, e at next level, right associativity).

(** ** The parser *)

Module HttpMethod.
Inductive t := GET | POST | PUT | PATCH | DELETE.

(** The string the union member stands for. *)
Definition toString (m : t) : jsstring :=
  match m with
  | GET => str "GET"
  | POST => str "POST"
  | PUT => str "PUT"
  | PATCH => str "PATCH"
  | DELETE => str "DELETE"
  end.
End HttpMethod.
Export HttpMethod (GET, POST, PUT, PATCH, DELETE).

Module ParsedMethod.
Record t := mk {
  name : jsstring;
  inputType : jsstring;
  outputType : jsstring;
  httpMethod : HttpMethod.t;
  httpPath : jsstring;
  body : option jsstring
}.
End ParsedMethod.

Module ParsedService.
Record t := mk {
  packageName : jsstring;
  serviceName : jsstring;
  fullName : jsstring;
  methods : list ParsedMethod.t
}.
End ParsedService.

Module ServiceMatch.
Record t := mk { name : jsstring; body : jsstring }.
End ServiceMatch.

Module HttpAnnotation.
Record t := mk {
  method : HttpMethod.t;
  path : jsstring;
  body : option jsstring
}.
End HttpAnnotation.

(** [/^\s*package\s+([\w.]+)\s*;/m] *)
Definition packageRegex : RegExp :=
  mkRegExp
    ([Bol; Star space] ++ lit "package" ++
     [Plus space; Open 1; Plus wordOrDot; Close 1; Star space] ++ lit ";")
    false true false.

Definition extractPackageName (content : jsstring) : jsstring :=
  match strMatch content packageRegex with
  | Some m => capture m 1
  | None => []
  end.

Definition lbrace : cu := 123%N.
Definition rbrace : cu := 125%N.

(** The [while (i < content.length && depth > 0)] loop of
    [extractBracedContent]; [rest] is the content from [i] on.  The final
    [i] is returned. *)
Fixpoint scanBraces (rest : jsstring) (depth : Z) (i : nat) : nat :=
  match rest with
  | [] => i
  | ch :: rest' =>
      if (0 <? depth)%Z then
        scanBraces rest'
          (if N.eqb ch lbrace then depth + 1
           else if N.eqb ch rbrace then depth - 1
           else depth)%Z
          (S i)
      else i
  end.

Definition extractBracedContent (content : jsstring) (startIndex : nat)
  : jsstring :=
  let i := scanBraces (skipn startIndex content) 1 startIndex in
  slice content (Z.of_nat startIndex) (Z.of_nat i - 1).

(** [/service\s+(\w+)\s*\{/g] *)
Definition serviceRegex : RegExp :=
  mkRegExp
    (lit "service" ++ [Plus space; Open 1; Plus word; Close 1; Star space] ++
     lit "{")
    false false true.

Definition extractServices_step (content : jsstring) (m : MatchResult)
           (services : list ServiceMatch.t) : list ServiceMatch.t :=
  let serviceName := capture m 1 in
  let startIndex := index m + length (matched m) in
  let body := extractBracedContent content startIndex in
  if truthy body then services ++ [ServiceMatch.mk serviceName body]
  else services.

Definition extractServices (content : jsstring) : option (list ServiceMatch.t) :=
  whileExec (S (length content)) serviceRegex content
            (extractServices_step content) 0 [].

(** The part the path and body patterns share: [\s*:\s*[Q]([^Q]+)[Q]]. *)
Definition valueTail : list node :=
  [Star space] ++ lit ":" ++
  [Star space; One quote; Open 1; Plus notQuote; Close 1; One quote].

(** [new RegExp(`${methodLower}\s*:\s*[Q]([^Q]+)[Q]`, 'i')], where [Q]
    stands for the two quote characters of the bracket classes. *)
Definition pathRegex (method : HttpMethod.t) : RegExp :=
  let methodLower := toLowerCase (HttpMethod.toString method) in
  mkRegExp (map (fun c => One (Chr c)) methodLower ++ valueTail) true false false.

(** [/body\s*:\s*[Q]([^Q]+)[Q]/] *)
Definition bodyRegex : RegExp :=
  mkRegExp (lit "body" ++ valueTail) false false false.

Definition httpMethods : list HttpMethod.t := [GET; POST; PUT; PATCH; DELETE].

(** The [for (const method of httpMethods)] loop of [parseHttpAnnotation]. *)
Fixpoint parseHttpAnnotation_for (optionsBlock : jsstring)
         (ms : list HttpMethod.t) : option HttpAnnotation.t :=
  match ms with
  | [] => None
  | method :: ms' =>
      match strMatch optionsBlock (pathRegex method) with
      | Some pathMatch =>
          let path := capture pathMatch 1 in
          let bodyMatch := strMatch optionsBlock bodyRegex in
          Some (HttpAnnotation.mk method path
                  (match bodyMatch with
                   | Some bm => Some (capture bm 1)
                   | None => None
                   end))
      | None => parseHttpAnnotation_for optionsBlock ms'
      end
  end.

Definition marker : jsstring := str "google.api.http".

Definition parseHttpAnnotation (optionsBlock : jsstring)
  : option HttpAnnotation.t :=
  if negb (includes marker optionsBlock) then None
  else parseHttpAnnotation_for optionsBlock httpMethods.

(** [/rpc\s+(\w+)\s*\(\s*(\w+)\s*\)\s*returns\s*\(\s*([\w.]+)\s*\)\s*\{/g] *)
Definition rpcStartRegex : RegExp :=
  mkRegExp
    (lit "rpc" ++ [Plus space; Open 1; Plus word; Close 1; Star space] ++
     lit "(" ++ [Star space; Open 2; Plus word; Close 2; Star space] ++
     lit ")" ++ [Star space] ++ lit "returns" ++ [Star space] ++
     lit "(" ++ [Star space; Open 3; Plus wordOrDot; Close 3; Star space] ++
     lit ")" ++ [Star space] ++ lit "{")
    false false true.

(** The options block the brace scanner recovers for one match of
    [rpcStartRegex]. *)
Definition optionsBlockOf (serviceBody : jsstring) (m : MatchResult) : jsstring :=
  let startIndex := index m + length (matched m) in
  extractBracedContent serviceBody startIndex.

Definition extractMethods_step (serviceBody : jsstring) (m : MatchResult)
           (methods : list ParsedMethod.t) : list ParsedMethod.t :=
  let methodName := capture m 1 in
  let inputType := capture m 2 in
  let outputType := capture m 3 in
  let optionsBlock := optionsBlockOf serviceBody m in
  match parseHttpAnnotation optionsBlock with
  | Some httpAnnotation =>
      methods ++
      [ParsedMethod.mk methodName inputType outputType
         (HttpAnnotation.method httpAnnotation)
         (HttpAnnotation.path httpAnnotation)
         (HttpAnnotation.body httpAnnotation)]
  | None => methods
  end.

Definition extractMethods (serviceBody : jsstring)
  : option (list ParsedMethod.t) :=
  whileExec (S (length serviceBody)) rpcStartRegex serviceBody
            (extractMethods_step serviceBody) 0 [].

(** The template literal [`${packageName}.${serviceName}`] or the bare
    service name. *)
Definition fullNameOf (packageName serviceName : jsstring) : jsstring :=
  if truthy packageName then packageName ++ str "." ++ serviceName
  else serviceName.

(** The [for (const serviceMatch of serviceMatches)] loop of
    [parseProtoFile]. *)
Fixpoint parseProtoFile_for (packageName : jsstring)
         (serviceMatches : list ServiceMatch.t)
         (services : list ParsedService.t) : option (list ParsedService.t) :=
  match serviceMatches with
  | [] => Some services
  | serviceMatch :: rest =>
      let serviceName := ServiceMatch.name serviceMatch in
      methods <- extractMethods (ServiceMatch.body serviceMatch) ;;
      parseProtoFile_for packageName rest
        (if Nat.ltb 0 (length methods) then
           services ++
           [ParsedService.mk packageName serviceName
              (fullNameOf packageName serviceName) methods]
         else services)
  end.

Definition parseProtoFile (content : jsstring) : option (list ParsedService.t) :=
  let packageName := extractPackageName content in
  serviceMatches <- extractServices content ;;
  parseProtoFile_for packageName serviceMatches [].

(** The [for (const content of files)] loop of [parseProtoFiles]. *)
Fixpoint parseProtoFiles_for (files : list jsstring)
         (allServices : list ParsedService.t) : option (list ParsedService.t) :=
  match files with
  | [] => Some allServices
  | content :: rest =>
      services <- parseProtoFile content ;;
      parseProtoFiles_for rest (allServices ++ services)
  end.

Definition parseProtoFiles (files : list jsstring)
  : option (list ParsedService.t) :=
  parseProtoFiles_for files [].

(** ** Sample inputs *)

Module Samples.

Definition q (s : string) : jsstring := dq :: str s ++ [dq].

(** The first binding test of the repository's parser tests. *)
Definition getUser : jsstring :=
  str "
        syntax = 'proto3';
        package users.v1;

        service UserService {
          rpc GetUser(GetUserRequest) returns (GetUserResponse) {
            option (google.api.http) = {
              get: " ++ q "/v1/users/{user_id}" ++ str "
            };
          };
        }
      ".

(** The binding test with a body selector. *)
Definition createUser : jsstring :=
  str "
        syntax = 'proto3';
        package users.v1;

        service UserService {
          rpc CreateUser(CreateUserRequest) returns (CreateUserResponse) {
            option (google.api.http) = {
              post: " ++ q "/v1/users" ++ str "
              body: " ++ q "*" ++ str "
            };
          };
        }
      ".

Definition getA : jsstring := str "get: " ++ q "/a".
Definition postB : jsstring := str "post: " ++ q "/b".
Definition bodyStar : jsstring := str "body: " ++ q "*".

(** An options block with both pairs, the [get] one first and then the
    [post] one first. *)
Definition getAndPost : jsstring :=
  str "option (google.api.http) = { " ++ getA ++ str " " ++ postB ++ str " }".

Definition postAndGet : jsstring :=
  str "option (google.api.http) = { " ++ postB ++ str " " ++ getA ++ str " }".

(** An options block with a second [get] pair before [get: /a]. *)
Definition twoGets : jsstring :=
  str "option (google.api.http) = { get: " ++ q "/z" ++ str " " ++
  getA ++ str " " ++ postB ++ str " }".

(** Upper-case keyword and single quotes. *)
Definition upperSingle : jsstring :=
  str "option (google.api.http) = { GET: '/a' }".

(** A [post] pair followed by a body selector. *)
Definition postWithBody : jsstring :=
  str "option (google.api.http) = { post: " ++ q "/v1/users" ++ str " " ++
  bodyStar ++ str " }".


(** A service body whose option block holds a nested brace pair before the
    body selector. *)
Definition nestedBody : jsstring :=
  str " rpc Get(Req) returns (Res) { option (google.api.http) = { get: " ++
  q "/a" ++ str " additional_bindings { get: " ++ q "/b" ++ str " } body: " ++
  q "*" ++ str " }; } ".

(** Two texts that declare the same package and service. *)
Definition twin (path : string) : jsstring :=
  str "package p; service S { rpc M(A) returns (B) { option (google.api.http) = { get: "
  ++ q path ++ str " }; } }".

(** A service whose braces are never closed. *)
Definition unclosed : jsstring :=
  str "service S { rpc M(A) returns (B) { option (google.api.http) = { get: "
  ++ q "/a".

(** The texts of the remaining parser tests of the repository. *)
Definition emptyService : jsstring :=
  str "
        syntax = 'proto3';
        package users.v1;

        service UserService {}
      ".

Definition allVerbs : jsstring :=
  str "
        syntax = 'proto3';
        package api.v1;

        service TestService {
          rpc Get(Req) returns (Res) {
            option (google.api.http) = { get: " ++ q "/get" ++ str " };
          };
          rpc Post(Req) returns (Res) {
            option (google.api.http) = { post: " ++ q "/post" ++ str " };
          };
          rpc Put(Req) returns (Res) {
            option (google.api.http) = { put: " ++ q "/put" ++ str " };
          };
          rpc Patch(Req) returns (Res) {
            option (google.api.http) = { patch: " ++ q "/patch" ++ str " };
          };
          rpc Delete(Req) returns (Res) {
            option (google.api.http) = { delete: " ++ q "/delete" ++ str " };
          };
        }
      ".

Definition twoServices : jsstring :=
  str "
        syntax = 'proto3';
        package api.v1;

        service UserService {
          rpc GetUser(Req) returns (Res) {
            option (google.api.http) = { get: " ++ q "/users/{id}" ++ str " };
          };
        }

        service OrderService {
          rpc GetOrder(Req) returns (Res) {
            option (google.api.http) = { get: " ++ q "/orders/{id}" ++ str " };
          };
        }
      ".

Definition mixedService : jsstring :=
  str "
        syntax = 'proto3';
        package api.v1;

        service MixedService {
          rpc WithHttp(Req) returns (Res) {
            option (google.api.http) = { get: " ++ q "/with-http" ++ str " };
          };

          rpc WithoutHttp(Req) returns (Res) {
            // No HTTP annotation
          };
        }
      ".

(** A text with no package declaration and one bound method. *)
Definition noPackage : jsstring :=
  str "service S { rpc M(A) returns (B) { option (google.api.http) = { get: '/a' }; } }".

End Samples.

(** ** Vocabulary of the statements *)

(** The match attempt at index [i] of [s]. *)
Definition matchAt (re : RegExp) (s : jsstring) (i : nat) : option (nat * caps) :=
  matchHere re (charBefore s i) (skipn i s).

(** A regexp whose pattern starts with an atom: it never matches the empty
    string. *)
Definition startsWithAtom (re : RegExp) : Prop :=
  exists a r, source re = One a :: r.

(** A continuation that ends between the position it is entered at and
    the end of the input. *)
Definition bounded (k : cont) : Prop :=
  forall pos prev rest c e c',
    k pos prev rest c = Some (e, c') -> pos <= e <= pos + length rest.

(** The matches the loop [whileExec] visits, in order. *)
Definition visited (re : RegExp) (s : jsstring) (fuel li : nat)
  : option (list MatchResult) :=
  whileExec fuel re s (fun m l => l ++ [m]) li [].

(** The matches of [rpcStartRegex] the loop of [extractMethods] visits. *)
Definition rpcMatches (serviceBody : jsstring) : option (list MatchResult) :=
  visited rpcStartRegex serviceBody (S (length serviceBody)) 0.

(** A service match that keeps at least one method. *)
Definition hasMethods (sm : ServiceMatch.t) : bool :=
  match extractMethods (ServiceMatch.body sm) with
  | Some (_ :: _) => true
  | _ => false
  end.

(** The service entry [parseProtoFile] pushes for a service match. *)
Definition entryOf (packageName : jsstring) (sm : ServiceMatch.t)
           (s : ParsedService.t) : Prop :=
  ParsedService.packageName s = packageName /\
  ParsedService.serviceName s = ServiceMatch.name sm /\
  ParsedService.fullName s = fullNameOf packageName (ServiceMatch.name sm) /\
  extractMethods (ServiceMatch.body sm) = Some (ParsedService.methods s) /\
  ParsedService.methods s <> [].

(** The change of nesting depth a code unit makes. *)
Definition braceDelta (ch : cu) : Z :=
  if N.eqb ch lbrace then 1 else if N.eqb ch rbrace then -1 else 0.

(** The nesting depth after the code units of [s], entered at depth [d]. *)
Fixpoint depthAfter (d : Z) (s : jsstring) : Z :=
  match s with
  | [] => d
  | ch :: s' => depthAfter (d + braceDelta ch) s'
  end.

(** The depth is positive before [s] and after each of its code units. *)
Definition staysOpen (d : Z) (s : jsstring) : Prop :=
  forall n, n <= length s -> (0 < depthAfter d (firstn n s))%Z.

(** No match attempt below index [n] succeeds. *)
Definition noMatchBelow (re : RegExp) (s : jsstring) (n : nat) : bool :=
  forallb (fun j => match matchAt re s j with None => true | Some _ => false end)
          (seq 0 n).


(** The end of [pre] is a line start: nothing, or a line terminator, comes
    last. *)
Definition lineStartAfter (pre : jsstring) : Prop :=
  pre = [] \/ exists p c, pre = p ++ [c] /\ isLineTerminator c = true.

(** The groups a pattern has closed at its end, given the groups [o]
    opened and [cl] closed before it. *)
Fixpoint groupsClosed (r : list node) (o cl : list nat) : list nat :=
  match r with
  | [] => cl
  | Open n :: r' => groupsClosed r' (n :: o) cl
  | Close n :: r' =>
      groupsClosed r' o (if existsb (Nat.eqb n) o then n :: cl else cl)
  | _ :: r' => groupsClosed r' o cl
  end.

(** The capture state has the groups [o] opened and [cl] closed. *)
Definition holds (o cl : list nat) (c : caps) : Prop :=
  (forall n, In n o -> assoc n (opened c) <> None) /\
  (forall n, In n cl -> assoc n (closed c) <> None).

(** ** What a pattern denotes

    The strings a pattern stands for, told without backtracking: each
    quantified atom takes some run [v] of code units it matches, and a
    group captures the code units taken while it is open.  [og] holds the
    open groups with what they have taken so far, [cl] the closed ones. *)

Definition extend (og : list (nat * jsstring)) (v : jsstring)
  : list (nat * jsstring) :=
  map (fun g => (fst g, snd g ++ v)) og.

Fixpoint denotes (re : RegExp) (r : list node) (pos : nat) (prev : option cu)
         (rest : jsstring) (og cl : list (nat * jsstring))
         (e : nat) (clf : list (nat * jsstring)) : Prop :=
  match r with
  | [] => e = pos /\ clf = cl
  | One a :: r' =>
      exists ch rest',
        rest = ch :: rest' /\ atomMatches re a ch = true /\
        denotes re r' (S pos) (Some ch) rest' (extend og [ch]) cl e clf
  | Star a :: r' =>
      exists v rest' prev',
        rest = v ++ rest' /\
        Forall (fun ch => atomMatches re a ch = true) v /\
        denotes re r' (pos + length v) prev' rest' (extend og v) cl e clf
  | Plus a :: r' =>
      exists v rest' prev',
        rest = v ++ rest' /\ v <> [] /\
        Forall (fun ch => atomMatches re a ch = true) v /\
        denotes re r' (pos + length v) prev' rest' (extend og v) cl e clf
  | Open n :: r' => denotes re r' pos prev rest ((n, []) :: og) cl e clf
  | Close n :: r' =>
      denotes re r' pos prev rest og
              (match assoc n og with Some v => (n, v) :: cl | None => cl end)
              e clf
  | Bol :: r' =>
      atLineStart re prev = true /\ denotes re r' pos prev rest og cl e clf
  end.

(** The capture state [c] of the matcher at position [pos] of [s0] agrees
    with the open groups [og] and the closed groups [cl]. *)
Definition agrees (s0 : jsstring) (pos : nat) (rest : jsstring) (c : caps)
           (og cl : list (nat * jsstring)) : Prop :=
  skipn pos s0 = rest /\ closed c = cl /\
  Forall2 (fun o g => fst o = fst g /\ snd o + length (snd g) = pos /\
                      substring s0 (snd o) pos = snd g)
          (opened c) og.

(** ** More of the source *)

(** [getConnectPath]: the template literal
    [`/${service.fullName}/${method.name}`]. *)
Definition getConnectPath (service : ParsedService.t) (method : ParsedMethod.t)
  : jsstring :=
  str "/" ++ ParsedService.fullName service ++ str "/" ++
  ParsedMethod.name method.

(** The [methodCount] of the plugin response and of the local report in
    main: [allServices.reduce((sum, s) => sum + s.methods.length, 0)]. *)
Definition methodCount (allServices : list ParsedService.t) : nat :=
  fold_left (fun sum s => sum + length (ParsedService.methods s)) allServices 0.

(** The [services] of the plugin response:
    [allServices.map((s) => s.fullName)]. *)
Definition serviceNames (allServices : list ParsedService.t) : list jsstring :=
  map ParsedService.fullName allServices.

(** *** The arguments of the local mode of [main] *)

(** Strict equality of two strings. *)
Fixpoint strEq (a b : jsstring) : bool :=
  match a, b with
  | [], [] => true
  | x :: a', y :: b' => N.eqb x y && strEq a' b'
  | _, _ => false
  end.

(** [args.includes(a)] *)
Definition arrayIncludes (args : list jsstring) (a : jsstring) : bool :=
  existsb (strEq a) args.

(** [args.indexOf(a)], with -1 for an absent element; [i] is the index of
    the head of [args]. *)
Fixpoint indexOfFrom (args : list jsstring) (a : jsstring) (i : Z) : Z :=
  match args with
  | [] => -1
  | x :: args' => if strEq x a then i else indexOfFrom args' a (i + 1)
  end.

Definition indexOf (args : list jsstring) (a : jsstring) : Z :=
  indexOfFrom args a 0.

(** [args[i]]: [None] stands for [undefined]. *)
Definition elementAt (args : list jsstring) (i : Z) : option jsstring :=
  if (i <? 0)%Z then None else nth_error args (Z.to_nat i).

(** [args.includes("--local") || args.includes("-l")] *)
Definition main_isLocal (args : list jsstring) : bool :=
  arrayIncludes args (str "--local") || arrayIncludes args (str "-l").

(** [args.find((a) => !a.startsWith("-")) || "./proto"] *)
Definition main_protoDir (args : list jsstring) : jsstring :=
  match find (fun a => negb (startsWith (str "-") a)) args with
  | Some a => if truthy a then a else str "./proto"
  | None => str "./proto"
  end.

(** [args.indexOf("--out") !== -1 ? args.indexOf("--out") : args.indexOf("-o")] *)
Definition main_outIndex (args : list jsstring) : Z :=
  if negb (indexOf args (str "--out") =? -1)%Z then indexOf args (str "--out")
  else indexOf args (str "-o").

(** [outIndex !== -1 && args[outIndex + 1] ? args[outIndex + 1] : "./generated"] *)
Definition main_outputDir (args : list jsstring) : jsstring :=
  let outIndex := main_outIndex args in
  if negb (outIndex =? -1)%Z then
    match elementAt args (outIndex + 1) with
    | Some d => if truthy d then d else str "./generated"
    | None => str "./generated"
    end
  else str "./generated".

(** ** Vocabulary of the further properties *)

(** [m] is a match of [re] in [s]: the pattern matches at [m.index], with
    [m[0]] and the groups of [m]. *)
Definition isMatch (re : RegExp) (s : jsstring) (m : MatchResult) : Prop :=
  exists c, matchAt re s (index m) = Some (length (matched m), c) /\
            groups m = closed c.

(** A non-empty run of [\w] code units. *)
Definition identifier (v : jsstring) : Prop :=
  v <> [] /\ Forall (fun ch => isWord ch = true) v.

(** A non-empty run of [[\w.]] code units. *)
Definition dottedIdentifier (v : jsstring) : Prop :=
  v <> [] /\ Forall (fun ch => isWordOrDot ch = true) v.

(** A non-empty string without a double or single quote. *)
Definition quoteFree (v : jsstring) : Prop :=
  v <> [] /\ Forall (fun ch => isQuote ch = false) v.

Definition wellFormedMethod (m : ParsedMethod.t) : Prop :=
  identifier (ParsedMethod.name m) /\
  identifier (ParsedMethod.inputType m) /\
  dottedIdentifier (ParsedMethod.outputType m) /\
  quoteFree (ParsedMethod.httpPath m) /\
  (forall b, ParsedMethod.body m = Some b -> quoteFree b).

(** U+002F, the separator of [getConnectPath]. *)
Definition slash : cu := 47%N.

(** A service entry of the model is well formed: names are identifiers,
    the methods are well formed and there is one at least. *)
Definition wellFormedService (s : ParsedService.t) : Prop :=
  identifier (ParsedService.serviceName s) /\
  Forall (fun ch => isWordOrDot ch = true) (ParsedService.packageName s) /\
  dottedIdentifier (ParsedService.fullName s) /\
  ParsedService.methods s <> [] /\
  Forall wellFormedMethod (ParsedService.methods s).

(** Index [j] of [content] is at a line start: the start of the text, or
    the place after a line terminator. *)
Definition lineStartAt (content : jsstring) (j : nat) : Prop :=
  j = 0 \/
  exists k c, j = S k /\ nth_error content k = Some c /\
              isLineTerminator c = true.

(** A package declaration with the name [name] begins at index [j] of
    [content]: at a line start come optional white space, the keyword
    [package], white space, the dotted name, optional white space and the
    semicolon. *)
Definition packageDeclaredAt (content : jsstring) (j : nat) (name : jsstring)
  : Prop :=
  lineStartAt content j /\
  exists ws ws1 ws2 post,
    skipn j content =
      ws ++ str "package" ++ ws1 ++ name ++ ws2 ++ str ";" ++ post /\
    Forall (fun c => isSpace c = true) ws /\
    Forall (fun c => isSpace c = true) ws1 /\ ws1 <> [] /\
    Forall (fun c => isWordOrDot c = true) name /\ name <> [] /\
    Forall (fun c => isSpace c = true) ws2.

(** * Properties *)

(** ** The parser tests of the repository *)

Example test_empty_service : parseProtoFile Samples.emptyService = Some [].
Proof. vm_compute. reflexivity. Qed.

Example test_get_method :
  parseProtoFile Samples.getUser =
  Some [ParsedService.mk (str "users.v1") (str "UserService")
          (str "users.v1.UserService")
          [ParsedMethod.mk (str "GetUser") (str "GetUserRequest")
             (str "GetUserResponse") GET (str "/v1/users/{user_id}") None]].
Proof. vm_compute. reflexivity. Qed.

Example test_post_with_body :
  parseProtoFile Samples.createUser =
  Some [ParsedService.mk (str "users.v1") (str "UserService")
          (str "users.v1.UserService")
          [ParsedMethod.mk (str "CreateUser") (str "CreateUserRequest")
             (str "CreateUserResponse") POST (str "/v1/users")
             (Some (str "*"))]].
Proof. vm_compute. reflexivity. Qed.

Example test_all_verbs :
  (svcs <- parseProtoFile Samples.allVerbs ;;
   Some (map (fun s => map ParsedMethod.httpMethod (ParsedService.methods s))
             svcs)) =
  Some [[GET; POST; PUT; PATCH; DELETE]].
Proof. vm_compute. reflexivity. Qed.

Example test_two_services :
  (svcs <- parseProtoFile Samples.twoServices ;;
   Some (map ParsedService.serviceName svcs)) =
  Some [str "UserService"; str "OrderService"].
Proof. vm_compute. reflexivity. Qed.

Example test_skip_unannotated :
  (svcs <- parseProtoFile Samples.mixedService ;;
   Some (map (fun s => map ParsedMethod.name (ParsedService.methods s)) svcs)) =
  Some [[str "WithHttp"]].
Proof. vm_compute. reflexivity. Qed.

(** ** The matcher stays inside its input *)

Section RunFacts.

Variable re : RegExp.
Variable s0 : jsstring.


Lemma greedy_bounded a k need : bounded k -> bounded (greedy re a k need).
Proof.
  intros Hk pos prev rest. revert need pos prev.
  induction rest as [|ch rest IH]; intros need pos prev c e c' H; simpl in H.
  - destruct need; [discriminate|]. now apply Hk in H.
  - destruct (atomMatches re a ch).
    + destruct (greedy re a k false (S pos) (Some ch) rest c)
        as [[e1 c1]|] eqn:E.
      * inversion H; subst. apply IH in E. simpl. lia.
      * destruct need; [discriminate|]. now apply Hk in H.
    + destruct need; [discriminate|]. now apply Hk in H.
Qed.

Lemma run_bounded r : bounded (run re s0 r).
Proof.
  induction r as [|n r IH]; intros pos prev rest c e c' H; simpl in H.
  - inversion H; subst. lia.
  - destruct n.
    + destruct rest as [|ch rest]; [discriminate|].
      destruct (atomMatches re a ch); [|discriminate].
      apply IH in H. simpl. lia.
    + now apply (greedy_bounded a false IH) in H.
    + now apply (greedy_bounded a true IH) in H.
    + now apply IH in H.
    + now apply IH in H.
    + destruct (atLineStart re prev); [|discriminate]. now apply IH in H.
Qed.

(** A pattern that starts with an atom consumes a code unit. *)
Lemma run_progress a r pos prev rest c e c' :
  run re s0 (One a :: r) pos prev rest c = Some (e, c') ->
  pos < e <= pos + length rest.
Proof.
  simpl. destruct rest as [|ch rest]; [discriminate|].
  destruct (atomMatches re a ch); [|discriminate].
  intros H. apply run_bounded in H. simpl. lia.
Qed.

End RunFacts.

Lemma matchHere_bounded re prev s len c :
  matchHere re prev s = Some (len, c) -> len <= length s.
Proof.
  unfold matchHere. intros H. apply run_bounded in H. lia.
Qed.


Lemma matchHere_progress re prev s len c :
  startsWithAtom re -> matchHere re prev s = Some (len, c) -> 0 < len.
Proof.
  intros (a & r & Hsrc). unfold matchHere. rewrite Hsrc.
  intros H. apply run_progress in H. lia.
Qed.

(** ** Search: the leftmost match *)


Lemma skipn_cons_nth (s : jsstring) i ch s' :
  skipn i s = ch :: s' -> nth_error s i = Some ch /\ skipn (S i) s = s'.
Proof.
  revert i. induction s as [|x s IH]; intros [|i] H; simpl in *;
    try discriminate.
  - inversion H; auto.
  - now apply IH.
Qed.

Lemma searchFrom_spec re (s : jsstring) :
  forall n idx m,
    length s - idx = n -> idx <= length s ->
    searchFrom re idx (charBefore s idx) (skipn idx s) = Some m ->
    idx <= index m <= length s /\
    (exists c, matchAt re s (index m) = Some (length (matched m), c) /\
               matched m = firstn (length (matched m)) (skipn (index m) s) /\
               groups m = closed c) /\
    (forall j, idx <= j < index m -> matchAt re s j = None).
Proof.
  induction n as [|n IH]; intros idx m Hn Hle H.
  - destruct (skipn idx s) as [|ch s'] eqn:Es.
    + simpl in H.
      destruct (matchHere re (charBefore s idx) []) as [[len c]|] eqn:E;
        [|discriminate].
      inversion H; subst; simpl. split; [lia|]. split; [|intros; lia].
      exists c. unfold matchAt. rewrite Es, E.
      apply matchHere_bounded in E. simpl in E.
      assert (len = 0) by lia. subst. auto.
    + apply (f_equal (@length _)) in Es. rewrite length_skipn in Es.
      simpl in Es. lia.
  - destruct (skipn idx s) as [|ch s'] eqn:Es.
    + apply (f_equal (@length _)) in Es. rewrite length_skipn in Es.
      simpl in Es. lia.
    + simpl in H.
      destruct (matchHere re (charBefore s idx) (ch :: s')) as [[len c]|] eqn:E.
      * inversion H; subst; simpl. split; [lia|]. split; [|intros; lia].
        exists c. unfold matchAt. rewrite Es, E.
        pose proof (matchHere_bounded _ _ _ E) as Hb.
        rewrite length_firstn, Nat.min_l by exact Hb. auto.
      * destruct (skipn_cons_nth _ _ Es) as [Hnth Hsk].
        assert (Hc : charBefore s (S idx) = Some ch) by exact Hnth.
        rewrite <- Hc, <- Hsk in H.
        apply IH in H; [|lia|lia].
        destruct H as (Hi & Hm & Hn').
        split; [lia|]. split; [exact Hm|].
        intros j Hj. destruct (Nat.eq_dec j idx) as [->|Hne].
        -- unfold matchAt. now rewrite Es.
        -- apply Hn'. lia.
Qed.

Lemma searchFrom_complete re (s : jsstring) :
  forall n idx i x,
    length s - idx = n -> idx <= i <= length s ->
    matchAt re s i = Some x ->
    exists m, searchFrom re idx (charBefore s idx) (skipn idx s) = Some m /\
              index m <= i.
Proof.
  induction n as [|n IH]; intros idx i x Hn Hi Hx.
  - assert (i = idx) by lia. subst i.
    unfold matchAt in Hx. destruct x as [len c].
    destruct (skipn idx s) as [|ch s'] eqn:Es; simpl; rewrite Hx;
      eexists; split; [reflexivity|simpl; lia|reflexivity|simpl; lia].
  - destruct (matchAt re s idx) as [[len c]|] eqn:E.
    + unfold matchAt in E.
      destruct (skipn idx s) as [|ch s'] eqn:Es; simpl; rewrite E;
        eexists; split; [reflexivity|simpl; lia|reflexivity|simpl; lia].
    + assert (Hne : i <> idx) by (intros ->; congruence).
      unfold matchAt in E.
      destruct (skipn idx s) as [|ch s'] eqn:Es.
      * apply (f_equal (@length _)) in Es. rewrite length_skipn in Es.
        simpl in Es. lia.
      * simpl. rewrite E.
        destruct (skipn_cons_nth _ _ Es) as [Hnth Hsk].
        assert (Hc : charBefore s (S idx) = Some ch) by exact Hnth.
        rewrite <- Hc, <- Hsk.
        apply (IH (S idx) i x); [lia|lia|exact Hx].
Qed.

Lemma strMatch_searchFrom re s :
  global re = false -> strMatch s re = searchFrom re 0 None s.
Proof.
  intros Hg. unfold strMatch, exec. rewrite Hg. simpl.
  destruct (searchFrom re 0 None s); reflexivity.
Qed.

(** [s.match(re)] returns the leftmost position where the pattern matches. *)
Lemma strMatch_leftmost re s m :
  global re = false -> strMatch s re = Some m ->
  (exists c, matchAt re s (index m) = Some (length (matched m), c) /\
             groups m = closed c) /\
  (forall j, j < index m -> matchAt re s j = None).
Proof.
  intros Hg H. rewrite strMatch_searchFrom in H by exact Hg.
  apply (searchFrom_spec re s (n := length s) (idx := 0)) in H;
    [|simpl; lia|lia].
  destruct H as (_ & (c & Hc & _ & Hgr) & Hn).
  split; [eauto|]. intros j Hj. apply Hn. lia.
Qed.

(** [s.match(re)] succeeds as soon as the pattern matches somewhere. *)
Lemma strMatch_complete re s i x :
  global re = false -> i <= length s -> matchAt re s i = Some x ->
  exists m, strMatch s re = Some m /\ index m <= i.
Proof.
  intros Hg Hi Hx. rewrite strMatch_searchFrom by exact Hg.
  apply (searchFrom_complete re s (n := length s) (idx := 0) (i := i) (x := x));
    [simpl; lia|lia|exact Hx].
Qed.

Lemma strMatch_none re s :
  global re = false ->
  (forall i, i <= length s -> matchAt re s i = None) ->
  strMatch s re = None.
Proof.
  intros Hg H. destruct (strMatch s re) as [m|] eqn:E; [|reflexivity].
  rewrite strMatch_searchFrom in E by exact Hg.
  apply (searchFrom_spec re s (n := length s) (idx := 0)) in E;
    [|simpl; lia|lia].
  destruct E as (Hi & (c & Hc & _) & _). rewrite H in Hc by lia. discriminate.
Qed.

(** ** The [exec] loops *)

Lemma exec_global re li s m li' :
  global re = true -> exec re li s = (Some m, li') ->
  li <= index m /\ li' = index m + length (matched m) /\ li' <= length s /\
  (exists c, matchAt re s (index m) = Some (length (matched m), c) /\
             groups m = closed c) /\
  (forall j, li <= j < index m -> matchAt re s j = None).
Proof.
  intros Hg. unfold exec. rewrite Hg.
  destruct (Nat.ltb (length s) li) eqn:El; [discriminate|].
  apply Nat.ltb_ge in El.
  destruct (searchFrom re li (charBefore s li) (skipn li s)) as [m'|] eqn:E;
    [|discriminate].
  intros H. inversion H; subst m' li'. clear H.
  apply (searchFrom_spec re s (n := length s - li)) in E; [|reflexivity|exact El].
  destruct E as (Hi & (c & Hc & _ & Hgr) & Hn).
  split; [lia|]. split; [reflexivity|].
  pose proof (matchHere_bounded _ _ _ Hc) as Hb. rewrite length_skipn in Hb.
  split; [lia|]. split; [eauto|exact Hn].
Qed.

Lemma exec_progress re li s m li' :
  global re = true -> startsWithAtom re ->
  exec re li s = (Some m, li') -> li < li' <= length s.
Proof.
  intros Hg Ha H. destruct (exec_global _ _ _ Hg H) as (Hi & -> & Hl & (c & Hc & _) & _).
  unfold matchAt in Hc. eapply matchHere_progress in Hc; [lia|exact Ha].
Qed.

Section WhileExec.

Variable A : Type.
Variable re : RegExp.
Variable s : jsstring.
Variable step : MatchResult -> A -> A.
Hypothesis Hglobal : global re = true.
Hypothesis Hatom : startsWithAtom re.

(** Every match moves [lastIndex] forward, so the loop ends within
    [length s - lastIndex + 1] rounds. *)
Lemma whileExec_total fuel :
  forall li acc, length s - li < fuel ->
                 exists v, whileExec fuel re s step li acc = Some v.
Proof.
  induction fuel as [|fuel IH]; intros li acc Hf; [lia|].
  simpl. destruct (exec re li s) as [[m|] li'] eqn:E; [|eauto].
  apply exec_progress in E; auto. apply IH. lia.
Qed.

(** More rounds than needed change nothing. *)
Lemma whileExec_fuel_mono fuel fuel' :
  fuel <= fuel' ->
  forall li acc v, whileExec fuel re s step li acc = Some v ->
                   whileExec fuel' re s step li acc = Some v.
Proof.
  revert fuel'. induction fuel as [|fuel IH]; intros fuel' Hle li acc v H;
    [discriminate|].
  destruct fuel' as [|fuel']; [lia|]. simpl in *.
  destruct (exec re li s) as [[m|] li']; [|exact H].
  apply IH; [lia|exact H].
Qed.


Lemma whileExec_visited_acc fuel :
  forall li (l : list MatchResult),
    whileExec fuel re s (fun m l => l ++ [m]) li l =
    (ms <- visited re s fuel li ;; Some (l ++ ms)).
Proof.
  unfold visited.
  induction fuel as [|fuel IH]; intros li l; [reflexivity|].
  simpl. destruct (exec re li s) as [[m|] li'].
  - rewrite (IH li' (l ++ [m])), (IH li' [m]).
    destruct (whileExec fuel re s _ li' []); [|reflexivity].
    now rewrite <- app_assoc.
  - now rewrite app_nil_r.
Qed.

(** The loop folds its body over the visited matches. *)
Lemma whileExec_fold fuel :
  forall li acc,
    whileExec fuel re s step li acc =
    (ms <- visited re s fuel li ;; Some (fold_left (fun a m => step m a) ms acc)).
Proof.
  induction fuel as [|fuel IH]; intros li acc; [reflexivity|].
  unfold visited. simpl. destruct (exec re li s) as [[m|] li']; [|reflexivity].
  rewrite IH, whileExec_visited_acc.
  destruct (visited re s fuel li'); reflexivity.
Qed.

(** Each visited entry is a match of the pattern in [s]. *)
Lemma visited_matches fuel :
  forall li ms, visited re s fuel li = Some ms ->
    Forall (fun m => exists c, matchAt re s (index m) =
                                 Some (length (matched m), c) /\
                               groups m = closed c) ms.
Proof.
  unfold visited.
  induction fuel as [|fuel IH]; intros li ms H; [discriminate|].
  simpl in H. destruct (exec re li s) as [[m|] li'] eqn:E.
  - rewrite whileExec_visited_acc in H.
    destruct (visited re s fuel li') as [ms'|] eqn:E'; [|discriminate].
    inversion H; subst. simpl. constructor.
    + now destruct (exec_global _ _ _ Hglobal E) as (_ & _ & _ & Hc & _).
    + now apply (IH li').
  - inversion H. constructor.
Qed.

End WhileExec.

(** ** The loops of the parser end *)

Lemma serviceRegex_atom : startsWithAtom serviceRegex.
Proof. unfold startsWithAtom. simpl. eauto. Qed.

Lemma rpcStartRegex_atom : startsWithAtom rpcStartRegex.
Proof. unfold startsWithAtom. simpl. eauto. Qed.

Lemma extractServices_total content :
  exists sms, extractServices content = Some sms.
Proof.
  apply whileExec_total; [reflexivity|exact serviceRegex_atom|lia].
Qed.

Lemma extractMethods_total serviceBody :
  exists ms, extractMethods serviceBody = Some ms.
Proof.
  apply whileExec_total; [reflexivity|exact rpcStartRegex_atom|lia].
Qed.

Lemma parseProtoFile_for_total packageName sms :
  forall services, exists v, parseProtoFile_for packageName sms services = Some v.
Proof.
  induction sms as [|sm sms IH]; intros services; simpl; [eauto|].
  destruct (extractMethods_total (ServiceMatch.body sm)) as [ms ->].
  apply IH.
Qed.

Lemma parseProtoFile_total content :
  exists svcs, parseProtoFile content = Some svcs.
Proof.
  unfold parseProtoFile.
  destruct (extractServices_total content) as [sms ->].
  apply parseProtoFile_for_total.
Qed.

Lemma parseProtoFiles_for_total files :
  forall acc, exists v, parseProtoFiles_for files acc = Some v.
Proof.
  induction files as [|f files IH]; intros acc; simpl; [eauto|].
  destruct (parseProtoFile_total f) as [svcs ->]. apply IH.
Qed.

(** ** What the loops collect *)


Lemma fold_left_pushes {A B} (step : B -> list A -> list A) :
  (forall m acc, step m acc = acc ++ step m []) ->
  forall ms acc,
    fold_left (fun a m => step m a) ms acc =
    acc ++ flat_map (fun m => step m []) ms.
Proof.
  intros Hs. induction ms as [|m ms IH]; intros acc; simpl.
  - now rewrite app_nil_r.
  - rewrite IH, (Hs m acc). now rewrite <- app_assoc.
Qed.

Lemma extractMethods_step_push serviceBody m acc :
  extractMethods_step serviceBody m acc =
  acc ++ extractMethods_step serviceBody m [].
Proof.
  unfold extractMethods_step.
  destruct (parseHttpAnnotation (optionsBlockOf serviceBody m));
    [reflexivity|now rewrite app_nil_r].
Qed.

Lemma extractMethods_flat serviceBody :
  extractMethods serviceBody =
  (ms <- rpcMatches serviceBody ;;
   Some (flat_map (fun m => extractMethods_step serviceBody m []) ms)).
Proof.
  unfold extractMethods, rpcMatches. rewrite whileExec_fold.
  destruct (visited rpcStartRegex serviceBody _ 0) as [ms|]; [|reflexivity].
  now rewrite (fold_left_pushes _ (extractMethods_step_push serviceBody)).
Qed.

Lemma parseHttpAnnotation_no_marker optionsBlock :
  includes marker optionsBlock = false -> parseHttpAnnotation optionsBlock = None.
Proof. unfold parseHttpAnnotation. now intros ->. Qed.

Lemma extractMethods_step_no_marker serviceBody m :
  includes marker (optionsBlockOf serviceBody m) = false ->
  extractMethods_step serviceBody m [] = [].
Proof.
  intros H. unfold extractMethods_step.
  now rewrite (parseHttpAnnotation_no_marker _ H).
Qed.


Lemma parseProtoFile_for_entries packageName sms :
  forall services v,
    parseProtoFile_for packageName sms services = Some v ->
    exists added, v = services ++ added /\
                  Forall2 (entryOf packageName) (filter hasMethods sms) added.
Proof.
  induction sms as [|sm sms IH]; intros services v H; simpl in H.
  - inversion H; subst. exists []. rewrite app_nil_r. split; [auto|constructor].
  - unfold hasMethods at 1. simpl.
    destruct (extractMethods (ServiceMatch.body sm)) as [ms|] eqn:E;
      [|discriminate].
    apply IH in H. destruct H as (added & -> & HF).
    destruct ms as [|pm ms]; simpl.
    + exists added. auto.
    + eexists (_ :: added). rewrite <- app_assoc. simpl.
      split; [reflexivity|]. constructor; [|exact HF].
      unfold entryOf; simpl. repeat split; auto. discriminate.
Qed.

Lemma parseProtoFile_entries content :
  exists sms svcs,
    extractServices content = Some sms /\
    parseProtoFile content = Some svcs /\
    Forall2 (entryOf (extractPackageName content)) (filter hasMethods sms) svcs.
Proof.
  destruct (extractServices_total content) as [sms Hs].
  destruct (parseProtoFile_total content) as [svcs Hp].
  exists sms, svcs. split; [exact Hs|]. split; [exact Hp|].
  unfold parseProtoFile in Hp. rewrite Hs in Hp.
  apply parseProtoFile_for_entries in Hp. destruct Hp as (added & -> & HF).
  exact HF.
Qed.

Lemma Forall2_In_r {A B} (R : A -> B -> Prop) l l' y :
  Forall2 R l l' -> In y l' -> exists x, In x l /\ R x y.
Proof.
  induction 1 as [|a b l l' Hab HF IH]; intros Hin; [destruct Hin|].
  destruct Hin as [<-|Hin]; [exists a; simpl; auto|].
  destruct (IH Hin) as (x & Hx & Hr). exists x; simpl; auto.
Qed.

(** ** The brace scanner *)

Lemma slice_substring (s : jsstring) a b :
  a <= length s -> b <= length s ->
  slice s (Z.of_nat a) (Z.of_nat b) = substring s a b.
Proof.
  intros Ha Hb. unfold slice, substring, clampIndex.
  destruct (Z.ltb_spec (Z.of_nat a) 0); [lia|].
  destruct (Z.ltb_spec (Z.of_nat b) 0); [lia|].
  rewrite !Z.min_l by lia. rewrite Nat2Z.id.
  f_equal. lia.
Qed.

Lemma scanBraces_step ch rest d i :
  (0 < d)%Z ->
  scanBraces (ch :: rest) d i = scanBraces rest (d + braceDelta ch) (S i).
Proof.
  intros Hd. simpl. destruct (Z.ltb_spec 0 d); [|lia].
  f_equal. unfold braceDelta.
  destruct (N.eqb ch lbrace); [reflexivity|].
  destruct (N.eqb ch rbrace); lia.
Qed.

Lemma scanBraces_closed rest d i : (d <= 0)%Z -> scanBraces rest d i = i.
Proof.
  intros Hd. destruct rest; simpl; [reflexivity|].
  destruct (Z.ltb_spec 0 d); [lia|reflexivity].
Qed.

Lemma staysOpen_cons d ch s :
  staysOpen d (ch :: s) -> (0 < d)%Z /\ staysOpen (d + braceDelta ch) s.
Proof.
  intros H. split.
  - apply (H 0). simpl. lia.
  - intros n Hn. apply (H (S n)). simpl. lia.
Qed.

(** While the depth stays positive the scanner walks on. *)
Lemma scanBraces_open inner :
  forall rest d i,
    staysOpen d inner ->
    scanBraces (inner ++ rest) d i =
    scanBraces rest (depthAfter d inner) (i + length inner).
Proof.
  induction inner as [|ch inner IH]; intros rest d i H; simpl app.
  - simpl. f_equal. lia.
  - apply staysOpen_cons in H. destruct H as [Hd H].
    rewrite scanBraces_step by exact Hd. rewrite IH by exact H.
    simpl. f_equal. lia.
Qed.

Lemma depthAfter_app d s t :
  depthAfter d (s ++ t) = depthAfter (depthAfter d s) t.
Proof.
  revert d. induction s as [|ch s IH]; intros d; simpl; [reflexivity|apply IH].
Qed.

Lemma firstn_S_skipn (s : jsstring) n ch s' :
  skipn n s = ch :: s' -> firstn (S n) s = firstn n s ++ [ch].
Proof.
  revert n. induction s as [|x s IH]; intros [|n] H; simpl in *;
    try discriminate.
  - now inversion H.
  - f_equal. now apply IH.
Qed.

(** The scanner on a balanced region: [j] is the index of the closing
    brace. *)
Lemma extractBracedContent_balanced content startIndex j :
  startIndex <= j < length content ->
  (forall k, startIndex <= k <= j ->
             (0 < depthAfter 1 (substring content startIndex k))%Z) ->
  depthAfter 1 (substring content startIndex (S j)) = 0%Z ->
  extractBracedContent content startIndex = substring content startIndex j.
Proof.
  intros Hj Hopen Hclose. unfold extractBracedContent.
  set (rest := skipn startIndex content).
  set (inner := firstn (j - startIndex) rest).
  assert (Hlen : length rest = length content - startIndex)
    by (unfold rest; apply length_skipn).
  assert (Hil : length inner = j - startIndex)
    by (unfold inner; rewrite length_firstn; lia).
  destruct (skipn (j - startIndex) rest) as [|ch post] eqn:Epost.
  { apply (f_equal (@length _)) in Epost. rewrite length_skipn in Epost.
    simpl in Epost. lia. }
  assert (Hrest : rest = inner ++ ch :: post).
  { unfold inner. rewrite <- Epost. symmetry. apply firstn_skipn. }
  assert (Hso : staysOpen 1 inner).
  { intros n Hn. specialize (Hopen (startIndex + n)).
    unfold substring in Hopen. fold rest in Hopen.
    replace (startIndex + n - startIndex) with n in Hopen by lia.
    unfold inner. rewrite firstn_firstn, Nat.min_l by lia.
    apply Hopen. lia. }
  assert (Hd : (depthAfter 1 inner + braceDelta ch = 0)%Z).
  { unfold substring in Hclose. fold rest in Hclose.
    replace (S j - startIndex) with (S (j - startIndex)) in Hclose by lia.
    rewrite (firstn_S_skipn _ _ Epost) in Hclose. fold inner in Hclose.
    rewrite depthAfter_app in Hclose. exact Hclose. }
  rewrite Hrest, scanBraces_open by exact Hso.
  rewrite scanBraces_step.
  2:{ specialize (Hso (length inner) (Nat.le_refl _)).
      now rewrite firstn_all in Hso. }
  rewrite scanBraces_closed by lia.
  replace (Z.of_nat (S (startIndex + length inner)) - 1)%Z with (Z.of_nat j)
    by lia.
  apply slice_substring; lia.
Qed.

(** The scanner on a region that is never closed: the loop runs to the end
    of the text and [slice(startIndex, i - 1)] leaves the last code unit
    out. *)
Lemma extractBracedContent_unclosed content startIndex :
  startIndex <= length content ->
  staysOpen 1 (skipn startIndex content) ->
  extractBracedContent content startIndex =
  removelast (skipn startIndex content).
Proof.
  intros Hs Hso. unfold extractBracedContent.
  rewrite <- (app_nil_r (skipn startIndex content)) at 1.
  rewrite scanBraces_open by exact Hso. simpl scanBraces.
  rewrite length_skipn.
  replace (startIndex + (length content - startIndex)) with (length content)
    by lia.
  rewrite removelast_firstn_len, length_skipn.
  destruct (length content) as [|n] eqn:El.
  - assert (startIndex = 0) by lia. subst.
    destruct content; [reflexivity|discriminate].
  - replace (Z.of_nat (S n) - 1)%Z with (Z.of_nat n) by lia.
    rewrite slice_substring by lia. unfold substring. f_equal. lia.
Qed.

(** ** Substrings and matches at a known place *)

Lemma startsWith_split p : forall s,
  startsWith p s = true -> exists post, s = p ++ post.
Proof.
  induction p as [|a p IH]; intros s H; [exists s; reflexivity|].
  destruct s as [|b s]; [discriminate|]. simpl in H.
  apply andb_true_iff in H. destruct H as [Hab H].
  apply N.eqb_eq in Hab. subst b.
  destruct (IH _ H) as [post ->]. now exists post.
Qed.

Lemma includes_split p : forall s,
  includes p s = true -> exists pre post, s = pre ++ p ++ post.
Proof.
  induction s as [|b s IH]; intros H.
  - simpl in H. rewrite orb_false_r in H.
    destruct (startsWith_split _ _ H) as [post ->]. now exists [], post.
  - simpl in H. apply orb_true_iff in H. destruct H as [H|H].
    + destruct (startsWith_split p (b :: s)) as [post ->]; [exact H|].
      now exists [], post.
    + destruct (IH H) as (pre & post & ->). now exists (b :: pre), post.
Qed.

Lemma skipn_app_length (pre x : jsstring) : skipn (length pre) (pre ++ x) = x.
Proof. induction pre; simpl; auto. Qed.

Lemma matchAt_app re (pre x : jsstring) :
  matchAt re (pre ++ x) (length pre) =
  matchHere re (charBefore (pre ++ x) (length pre)) x.
Proof. unfold matchAt. now rewrite skipn_app_length. Qed.

(** The leftmost match is the one at [length pre] when the pattern matches
    there and nowhere before. *)
Lemma strMatch_at re (pre x : jsstring) len c :
  global re = false ->
  matchAt re (pre ++ x) (length pre) = Some (len, c) ->
  (forall j, j < length pre -> matchAt re (pre ++ x) j = None) ->
  exists m, strMatch (pre ++ x) re = Some m /\
            index m = length pre /\ groups m = closed c.
Proof.
  intros Hg Hm Hnone.
  assert (Hlen : length pre <= length (pre ++ x)) by (rewrite length_app; lia).
  destruct (strMatch_complete re (pre ++ x) Hg Hlen Hm) as (m & Hs & Hi).
  exists m. split; [exact Hs|].
  pose proof Hs as Hl. apply strMatch_leftmost in Hl; [|exact Hg].
  destruct Hl as ((c' & Hc' & Hgr) & _).
  assert (index m = length pre).
  { destruct (Nat.eq_dec (index m) (length pre)) as [|Hne]; [assumption|].
    rewrite Hnone in Hc' by lia. discriminate. }
  split; [assumption|].
  rewrite H, Hm in Hc'. inversion Hc'; subst. exact Hgr.
Qed.

(** ** The binding parser *)

Lemma pathRegex_not_global method : global (pathRegex method) = false.
Proof. reflexivity. Qed.

(** The pair [get: "/a"] is matched by the [get] pattern wherever it
    stands, whatever comes before and after it. *)
Lemma getA_matches_here prev post :
  matchHere (pathRegex GET) prev (Samples.getA ++ post) =
  Some (9, mkCaps [(1, 6)] [(1, str "/a")]).
Proof. reflexivity. Qed.

Lemma bodyStar_matches_here prev post :
  matchHere bodyRegex prev (Samples.bodyStar ++ post) =
  Some (9, mkCaps [(1, 7)] [(1, str "*")]).
Proof. reflexivity. Qed.

Lemma parseHttpAnnotation_marker optionsBlock :
  includes marker optionsBlock = true ->
  parseHttpAnnotation optionsBlock =
  parseHttpAnnotation_for optionsBlock httpMethods.
Proof. unfold parseHttpAnnotation. now intros ->. Qed.

(** The verb loop returns at the first verb whose pattern matches. *)
Lemma parseHttpAnnotation_for_first optionsBlock before method after pm :
  (forall u, In u before -> strMatch optionsBlock (pathRegex u) = None) ->
  strMatch optionsBlock (pathRegex method) = Some pm ->
  parseHttpAnnotation_for optionsBlock (before ++ method :: after) =
  Some (HttpAnnotation.mk method (capture pm 1)
          (match strMatch optionsBlock bodyRegex with
           | Some bm => Some (capture bm 1)
           | None => None
           end)).
Proof.
  intros Hb Hm. induction before as [|u before IH]; simpl.
  - now rewrite Hm.
  - rewrite (Hb u) by (simpl; auto). apply IH.
    intros v Hv. apply Hb. simpl; auto.
Qed.

Lemma parseHttpAnnotation_for_none optionsBlock ms :
  (forall u, In u ms -> strMatch optionsBlock (pathRegex u) = None) ->
  parseHttpAnnotation_for optionsBlock ms = None.
Proof.
  induction ms as [|u ms IH]; intros H; simpl; [reflexivity|].
  rewrite (H u) by (simpl; auto). apply IH. intros v Hv. apply H. simpl; auto.
Qed.

(** Whatever verb is returned, the body selector is the result of the one
    search for the body pattern. *)
Lemma parseHttpAnnotation_for_body optionsBlock ms h :
  parseHttpAnnotation_for optionsBlock ms = Some h ->
  HttpAnnotation.body h =
  match strMatch optionsBlock bodyRegex with
  | Some bm => Some (capture bm 1)
  | None => None
  end.
Proof.
  induction ms as [|u ms IH]; simpl; [discriminate|].
  destruct (strMatch optionsBlock (pathRegex u)); [|exact IH].
  intros H. inversion H; subst. reflexivity.
Qed.

Lemma noMatchBelow_spec re s n :
  noMatchBelow re s n = true -> forall j, j < n -> matchAt re s j = None.
Proof.
  unfold noMatchBelow. rewrite forallb_forall. intros H j Hj.
  specialize (H j). rewrite in_seq in H.
  destruct (matchAt re s j); [|reflexivity].
  assert (false = true) by (apply H; lia). discriminate.
Qed.

(** C2 as stated is refuted: a block that holds the marker and both
    [get: "/a"] and [post: "/b"] but an earlier [get] pair as well yields the
    path of the earlier pair. *)
Lemma verb_precedence_path_refuted :
  ~ (forall optionsBlock,
        includes marker optionsBlock = true ->
        includes Samples.getA optionsBlock = true ->
        includes Samples.postB optionsBlock = true ->
        exists b, parseHttpAnnotation optionsBlock =
                  Some (HttpAnnotation.mk GET (str "/a") b)).
Proof.
  intros H.
  destruct (H Samples.twoGets eq_refl eq_refl eq_refl) as [b Hb].
  vm_compute in Hb. discriminate.
Qed.

(** C2 (amended): [parseHttpAnnotation] tries the verbs in the order GET,
    POST, PUT, PATCH, DELETE and returns at the first verb whose pattern
    matches, with the path captured at the leftmost match of that pattern
    (later verbs play no part in the result); it returns nothing when no
    verb matches.  For every options block with the marker and both
    [get: "/a"] and [post: "/b"] the verb is GET; the path is ["/a"] when
    no match of the [get] pattern starts before that pair.  The keyword is
    matched without regard to case and single quotes are accepted. *)
Theorem verb_order_first_match :
  (forall optionsBlock before method after pm,
      includes marker optionsBlock = true ->
      httpMethods = before ++ method :: after ->
      (forall u, In u before -> strMatch optionsBlock (pathRegex u) = None) ->
      strMatch optionsBlock (pathRegex method) = Some pm ->
      parseHttpAnnotation optionsBlock =
      Some (HttpAnnotation.mk method (capture pm 1)
              (match strMatch optionsBlock bodyRegex with
               | Some bm => Some (capture bm 1)
               | None => None
               end))) /\
  (forall optionsBlock,
      includes marker optionsBlock = true ->
      (forall u, In u httpMethods ->
                 strMatch optionsBlock (pathRegex u) = None) ->
      parseHttpAnnotation optionsBlock = None) /\
  (forall optionsBlock,
      includes marker optionsBlock = true ->
      includes Samples.getA optionsBlock = true ->
      includes Samples.postB optionsBlock = true ->
      exists p b, parseHttpAnnotation optionsBlock =
                  Some (HttpAnnotation.mk GET p b)) /\
  (forall pre post,
      includes marker (pre ++ Samples.getA ++ post) = true ->
      includes Samples.postB (pre ++ Samples.getA ++ post) = true ->
      (forall j, j < length pre ->
                 matchAt (pathRegex GET) (pre ++ Samples.getA ++ post) j = None) ->
      exists b, parseHttpAnnotation (pre ++ Samples.getA ++ post) =
                Some (HttpAnnotation.mk GET (str "/a") b)) /\
  parseHttpAnnotation Samples.getAndPost =
    Some (HttpAnnotation.mk GET (str "/a") None) /\
  parseHttpAnnotation Samples.postAndGet =
    Some (HttpAnnotation.mk GET (str "/a") None) /\
  parseHttpAnnotation Samples.upperSingle =
    Some (HttpAnnotation.mk GET (str "/a") None).
Proof.
  split; [|split; [|split; [|split; [|repeat split; reflexivity]]]].
  - intros optionsBlock before method after pm Hmk Hms Hb Hm.
    rewrite (parseHttpAnnotation_marker _ Hmk), Hms.
    now apply parseHttpAnnotation_for_first.
  - intros optionsBlock Hmk Hn.
    rewrite (parseHttpAnnotation_marker _ Hmk).
    now apply parseHttpAnnotation_for_none.
  - intros optionsBlock Hmk Hget _.
    destruct (includes_split _ _ Hget) as (pre & post & ->).
    assert (Hlen : length pre <= length (pre ++ Samples.getA ++ post))
      by (rewrite length_app; lia).
    assert (Hx : matchAt (pathRegex GET) (pre ++ Samples.getA ++ post)
                   (length pre) = Some (9, mkCaps [(1, 6)] [(1, str "/a")])).
    { rewrite matchAt_app. apply getA_matches_here. }
    apply strMatch_complete in Hx; [|reflexivity|exact Hlen].
    destruct Hx as (m & Hm & _).
    rewrite (parseHttpAnnotation_marker _ Hmk).
    change httpMethods with ([] ++ GET :: [POST; PUT; PATCH; DELETE]).
    erewrite parseHttpAnnotation_for_first; [eauto|intros u []|exact Hm].
  - intros pre post Hmk _ Hnone.
    assert (Hx : matchAt (pathRegex GET) (pre ++ Samples.getA ++ post)
                   (length pre) = Some (9, mkCaps [(1, 6)] [(1, str "/a")])).
    { rewrite matchAt_app. apply getA_matches_here. }
    apply strMatch_at in Hx; [|reflexivity|exact Hnone].
    destruct Hx as (m & Hm & _ & Hgr).
    rewrite (parseHttpAnnotation_marker _ Hmk).
    change httpMethods with ([] ++ GET :: [POST; PUT; PATCH; DELETE]).
    erewrite parseHttpAnnotation_for_first; [|intros u []|exact Hm].
    unfold capture at 1, group. rewrite Hgr. simpl. eauto.
Qed.

Lemma verb_order_first_match_witness :
  exists b, parseHttpAnnotation Samples.getAndPost =
            Some (HttpAnnotation.mk GET (str "/a") b).
Proof.
  destruct verb_order_first_match as (_ & _ & _ & H & _).
  apply (H (str "option (google.api.http) = { ")
           (str " " ++ Samples.postB ++ str " }")).
  - reflexivity.
  - reflexivity.
  - apply noMatchBelow_spec. vm_compute. reflexivity.
Defined.

(** C6: whenever [parseHttpAnnotation] returns a binding, its body selector
    is the group captured by one search of the same options block for the
    body pattern, whichever verb matched: the captured value when the
    pattern occurs (the value [*] is kept as it is), nothing when it does
    not occur. *)
Theorem body_selector_single_search :
  (forall optionsBlock h,
      parseHttpAnnotation optionsBlock = Some h ->
      HttpAnnotation.body h =
      match strMatch optionsBlock bodyRegex with
      | Some bm => Some (capture bm 1)
      | None => None
      end) /\
  (forall optionsBlock ms1 ms2 h1 h2,
      parseHttpAnnotation_for optionsBlock ms1 = Some h1 ->
      parseHttpAnnotation_for optionsBlock ms2 = Some h2 ->
      HttpAnnotation.body h1 = HttpAnnotation.body h2) /\
  (forall optionsBlock h,
      parseHttpAnnotation optionsBlock = Some h ->
      (forall i, i <= length optionsBlock ->
                 matchAt bodyRegex optionsBlock i = None) ->
      HttpAnnotation.body h = None) /\
  (forall pre post h,
      parseHttpAnnotation (pre ++ Samples.bodyStar ++ post) = Some h ->
      (forall j, j < length pre ->
                 matchAt bodyRegex (pre ++ Samples.bodyStar ++ post) j = None) ->
      HttpAnnotation.body h = Some (str "*")) /\
  parseHttpAnnotation Samples.postWithBody =
    Some (HttpAnnotation.mk POST (str "/v1/users") (Some (str "*"))).
Proof.
  assert (Hbody : forall optionsBlock h,
             parseHttpAnnotation optionsBlock = Some h ->
             HttpAnnotation.body h =
             match strMatch optionsBlock bodyRegex with
             | Some bm => Some (capture bm 1)
             | None => None
             end).
  { intros optionsBlock h. unfold parseHttpAnnotation.
    destruct (negb (includes marker optionsBlock)); [discriminate|].
    apply parseHttpAnnotation_for_body. }
  split; [exact Hbody|]. split; [|split; [|split; [|reflexivity]]].
  - intros optionsBlock ms1 ms2 h1 h2 H1 H2.
    rewrite (parseHttpAnnotation_for_body _ _ H1).
    now rewrite (parseHttpAnnotation_for_body _ _ H2).
  - intros optionsBlock h H Hnone. rewrite (Hbody _ _ H).
    now rewrite (strMatch_none bodyRegex optionsBlock eq_refl Hnone).
  - intros pre post h H Hnone. rewrite (Hbody _ _ H).
    assert (Hx : matchAt bodyRegex (pre ++ Samples.bodyStar ++ post)
                   (length pre) = Some (9, mkCaps [(1, 7)] [(1, str "*")])).
    { rewrite matchAt_app. apply bodyStar_matches_here. }
    apply strMatch_at in Hx; [|reflexivity|exact Hnone].
    destruct Hx as (m & -> & _ & Hgr).
    unfold capture, group. now rewrite Hgr.
Qed.

Lemma body_selector_single_search_witness :
  HttpAnnotation.body (HttpAnnotation.mk POST (str "/v1/users") (Some (str "*")))
  = match strMatch Samples.postWithBody bodyRegex with
    | Some bm => Some (capture bm 1)
    | None => None
    end.
Proof.
  apply (proj1 body_selector_single_search Samples.postWithBody).
  reflexivity.
Defined.



(** ** The model *)

Lemma rpcMatches_total serviceBody :
  exists ms, rpcMatches serviceBody = Some ms.
Proof.
  apply whileExec_total; [reflexivity|exact rpcStartRegex_atom|lia].
Qed.

(** C1: for every input text [parseProtoFile] returns a model in which
    (a) the services are those service matches that keep at least one
    method, in order, so that no entry has an empty methods list, and
    (b) the methods of a service body are what the matches of the rpc
    pattern contribute, in order, where a match whose recovered options
    block lacks the marker [google.api.http] contributes nothing. *)
Theorem annotation_presence_filter (content : jsstring) :
  exists sms svcs,
    extractServices content = Some sms /\
    parseProtoFile content = Some svcs /\
    Forall2 (entryOf (extractPackageName content)) (filter hasMethods sms) svcs /\
    (forall s, In s svcs -> ParsedService.methods s <> []) /\
    (forall serviceBody, exists ms,
        rpcMatches serviceBody = Some ms /\
        Forall (fun m => exists c,
                    matchAt rpcStartRegex serviceBody (index m) =
                    Some (length (matched m), c) /\ groups m = closed c) ms /\
        extractMethods serviceBody =
        Some (flat_map (fun m => extractMethods_step serviceBody m []) ms)) /\
    (forall optionsBlock,
        includes marker optionsBlock = false ->
        parseHttpAnnotation optionsBlock = None) /\
    (forall serviceBody m,
        includes marker (optionsBlockOf serviceBody m) = false ->
        extractMethods_step serviceBody m [] = []).
Proof.
  destruct (parseProtoFile_entries content) as (sms & svcs & Hs & Hp & HF).
  exists sms, svcs. repeat (split; [assumption|]).
  split; [|split; [|split]].
  - intros s Hin. eapply Forall2_In_r in Hin; [|exact HF].
    destruct Hin as (sm & _ & He). apply He.
  - intros serviceBody. destruct (rpcMatches_total serviceBody) as [ms Hms].
    exists ms. split; [exact Hms|]. split.
    + eapply visited_matches; [reflexivity|exact Hms].
    + now rewrite extractMethods_flat, Hms.
  - exact parseHttpAnnotation_no_marker.
  - exact extractMethods_step_no_marker.
Qed.

Lemma annotation_presence_filter_witness :
  parseHttpAnnotation (str "// No HTTP annotation") = None.
Proof.
  destruct (annotation_presence_filter []) as (_ & _ & _ & _ & _ & _ & _ & H & _).
  apply H. reflexivity.
Defined.

(** C3: when the braces from the start index on are balanced, the brace at
    index [j] being the first to bring the depth (1 at the start) back to 0,
    the scanner returns the region from the start index up to and without
    that brace, nested pairs included.  So the options block of a method
    with a nested brace pair is recovered up to its own closing brace: the
    body selector that follows the nested pair is found. *)
Theorem brace_scanner_balanced :
  (forall content startIndex j,
      startIndex <= j < length content ->
      (forall k, startIndex <= k <= j ->
                 (0 < depthAfter 1 (substring content startIndex k))%Z) ->
      depthAfter 1 (substring content startIndex (S j)) = 0%Z ->
      extractBracedContent content startIndex = substring content startIndex j /\
      nth_error content j = Some rbrace) /\
  (exists m,
      rpcMatches Samples.nestedBody = Some [m] /\
      optionsBlockOf Samples.nestedBody m =
        str " option (google.api.http) = { get: " ++ Samples.q "/a" ++
        str " additional_bindings { get: " ++ Samples.q "/b" ++
        str " } body: " ++ Samples.q "*" ++ str " }; ") /\
  extractMethods Samples.nestedBody =
    Some [ParsedMethod.mk (str "Get") (str "Req") (str "Res") GET (str "/a")
            (Some (str "*"))].
Proof.
  split; [|split; [eexists; split; reflexivity|reflexivity]].
  intros content startIndex j Hj Hopen Hclose.
  split; [now apply extractBracedContent_balanced|].
  destruct (skipn j content) as [|ch post] eqn:E.
  { apply (f_equal (@length _)) in E. rewrite length_skipn in E.
    simpl in E. lia. }
  destruct (skipn_cons_nth _ _ E) as [Hnth _]. rewrite Hnth. f_equal.
  specialize (Hopen j). unfold substring in *.
  assert (Es : skipn (j - startIndex) (skipn startIndex content) = ch :: post).
  { rewrite skipn_skipn. now replace (j - startIndex + startIndex) with j by lia. }
  replace (S j - startIndex) with (S (j - startIndex)) in Hclose by lia.
  rewrite (firstn_S_skipn _ _ Es), depthAfter_app in Hclose. simpl in Hclose.
  assert (Hpos : (0 < depthAfter 1
                         (firstn (j - startIndex) (skipn startIndex content)))%Z)
    by (apply Hopen; lia).
  unfold braceDelta in Hclose.
  destruct (N.eqb ch lbrace); [lia|].
  destruct (N.eqb_spec ch rbrace); [assumption|lia].
Qed.

Lemma brace_scanner_balanced_witness :
  extractBracedContent (str "{a{b}c}d") 1 = str "a{b}c" /\
  nth_error (str "{a{b}c}d") 6 = Some rbrace.
Proof.
  apply (proj1 brace_scanner_balanced (str "{a{b}c}d") 1 6).
  - simpl. lia.
  - intros k Hk.
    destruct k as [|[|[|[|[|[|[|k]]]]]]]; try (vm_compute; reflexivity); lia.
  - reflexivity.
Defined.

(** C4 on the code: on a text whose braces are never closed the loop does
    run to the end of the text without an error, but the scanner returns
    the remaining text without its last code unit: ["a"] for ["ab"].  A
    service whose braces stay open loses the closing quote of its last
    path that way, and with it the method. *)
Theorem brace_scanner_unclosed_drops_last :
  staysOpen 1 (str "ab") /\
  scanBraces (str "ab") 1 0 = length (str "ab") /\
  extractBracedContent (str "ab") 0 = str "a" /\
  extractBracedContent (str "ab") 0 <> skipn 0 (str "ab") /\
  parseProtoFile Samples.unclosed = Some [].
Proof.
  split; [|repeat split; try reflexivity; discriminate].
  intros n _. destruct n as [|[|[|n]]]; vm_compute; reflexivity.
Qed.

(** ** Several files *)

Lemma parseProtoFiles_for_concat files :
  forall acc v,
    parseProtoFiles_for files acc = Some v ->
    exists results,
      Forall2 (fun content r => parseProtoFile content = Some r) files results /\
      v = acc ++ concat results.
Proof.
  induction files as [|content files IH]; intros acc v H; simpl in H.
  - inversion H; subst. exists []. split; [constructor|].
    simpl. now rewrite app_nil_r.
  - destruct (parseProtoFile content) as [services|] eqn:E; [|discriminate].
    apply IH in H. destruct H as (results & HF & ->).
    exists (services :: results). split; [now constructor|].
    simpl. now rewrite app_assoc.
Qed.

(** C7: [parseProtoFiles] returns the concatenation of the results of
    [parseProtoFile] on each text, in input order; nothing is merged or
    removed: two texts that declare the same qualified service name
    yield two entries. *)
Theorem parseProtoFiles_concat :
  (forall files,
      exists results,
        Forall2 (fun content r => parseProtoFile content = Some r)
                files results /\
        parseProtoFiles files = Some (concat results)) /\
  (forall t1 t2 r1 r2,
      parseProtoFile t1 = Some r1 -> parseProtoFile t2 = Some r2 ->
      parseProtoFiles [t1; t2] = Some (r1 ++ r2)) /\
  (exists s1 s2,
      parseProtoFiles [Samples.twin "/a"; Samples.twin "/b"] = Some [s1; s2] /\
      ParsedService.fullName s1 = str "p.S" /\
      ParsedService.fullName s2 = str "p.S").
Proof.
  split; [|split].
  - intros files. destruct (parseProtoFiles_for_total files []) as [v Hv].
    destruct (parseProtoFiles_for_concat _ _ Hv) as (results & HF & ->).
    exists results. split; [exact HF|exact Hv].
  - intros t1 t2 r1 r2 H1 H2. unfold parseProtoFiles. simpl.
    rewrite H1, H2. reflexivity.
  - do 2 eexists. split; [vm_compute; reflexivity|split; reflexivity].
Qed.

Lemma parseProtoFiles_concat_witness :
  parseProtoFiles [[]; []] = Some ([] ++ []).
Proof.
  apply (proj1 (proj2 parseProtoFiles_concat) [] [] [] []); reflexivity.
Defined.

(** C8: for every input text, well formed or not, [parseProtoFile] and the
    extraction functions it is made of return a value: their loops end
    within the rounds they are given, and more rounds change nothing.  The
    empty text and a text with unclosed braces give the empty model. *)
Theorem parser_never_raises (content : jsstring) :
  (exists svcs, parseProtoFile content = Some svcs) /\
  (exists sms, extractServices content = Some sms) /\
  (exists ms, extractMethods content = Some ms) /\
  (forall fuel, length content < fuel ->
     whileExec fuel serviceRegex content (extractServices_step content) 0 [] =
     extractServices content) /\
  (forall fuel, length content < fuel ->
     whileExec fuel rpcStartRegex content (extractMethods_step content) 0 [] =
     extractMethods content) /\
  (forall files, exists all, parseProtoFiles (content :: files) = Some all) /\
  parseProtoFile [] = Some [] /\
  parseProtoFile Samples.unclosed = Some [].
Proof.
  split; [apply parseProtoFile_total|].
  split; [apply extractServices_total|].
  split; [apply extractMethods_total|].
  split; [|split; [|split; [|split; reflexivity]]].
  - intros fuel Hf. destruct (extractServices_total content) as [sms Hs].
    rewrite Hs. unfold extractServices in Hs.
    eapply whileExec_fuel_mono; [|exact Hs]. lia.
  - intros fuel Hf. destruct (extractMethods_total content) as [ms Hm].
    rewrite Hm. unfold extractMethods in Hm.
    eapply whileExec_fuel_mono; [|exact Hm]. lia.
  - intros files. apply parseProtoFiles_for_total.
Qed.

Lemma parser_never_raises_witness :
  whileExec 3 serviceRegex (str "{") (extractServices_step (str "{")) 0 [] =
  extractServices (str "{").
Proof.
  destruct (parser_never_raises (str "{")) as (_ & _ & _ & H & _).
  apply H. simpl. lia.
Defined.

(** ** The package declaration *)

(** A quantified atom takes the whole run of code units it matches when
    the rest of the pattern matches behind the run. *)
Lemma greedy_takes re a k : forall run_ need pos prev rest c r,
  Forall (fun ch => atomMatches re a ch = true) run_ ->
  match rest with
  | [] => True
  | ch :: _ => atomMatches re a ch = false
  end ->
  (need = true -> run_ <> []) ->
  (forall prev', k (pos + length run_) prev' rest c = Some r) ->
  greedy re a k need pos prev (run_ ++ rest) c = Some r.
Proof.
  induction run_ as [|x run_ IH]; intros need pos prev rest c r Hall Hstop Hneed Hk.
  - destruct need; [exfalso; now apply Hneed|].
    simpl in Hk. rewrite Nat.add_0_r in Hk. simpl.
    destruct rest as [|ch rest]; simpl; [apply Hk|].
    rewrite Hstop. apply Hk.
  - inversion Hall as [|? ? Hx Hall']; subst. simpl. rewrite Hx.
    rewrite (IH false (S pos) (Some x) rest c r); auto; [discriminate|].
    intros prev'. rewrite <- (Hk prev'). f_equal. simpl. lia.
Qed.

Ltac to_arith H :=
  repeat first
    [ rewrite orb_true_iff in H | rewrite andb_true_iff in H
    | rewrite N.leb_le in H | rewrite N.eqb_eq in H ].

Lemma space_not_wordOrDot c : isSpace c = true -> isWordOrDot c = false.
Proof.
  intros H. apply not_true_is_false. intros H'.
  unfold isSpace, isWordOrDot, isWord, inRange in *.
  to_arith H. to_arith H'. lia.
Qed.

Lemma wordOrDot_not_space c : isWordOrDot c = true -> isSpace c = false.
Proof.
  intros H. apply not_true_is_false. intros H'.
  now rewrite (space_not_wordOrDot _ H') in H.
Qed.

Lemma substring_middle (a b c : jsstring) n :
  n = length a + length b ->
  substring (a ++ b ++ c) (length a) n = b.
Proof.
  intros ->. unfold substring. rewrite skipn_app_length.
  replace (length a + length b - length a) with (length b) by lia.
  rewrite firstn_app, Nat.sub_diag, firstn_all. simpl. apply app_nil_r.
Qed.

(** The package pattern on a declaration: white space, the keyword, white
    space, the dotted name, optional white space and the semicolon. *)
Lemma package_declared_here prev ws ws1 name ws2 post :
  atLineStart packageRegex prev = true ->
  Forall (fun c => isSpace c = true) ws ->
  Forall (fun c => isSpace c = true) ws1 -> ws1 <> [] ->
  Forall (fun c => isWordOrDot c = true) name -> name <> [] ->
  Forall (fun c => isSpace c = true) ws2 ->
  exists len opened,
    matchHere packageRegex prev
      (ws ++ str "package" ++ ws1 ++ name ++ ws2 ++ str ";" ++ post) =
    Some (len, mkCaps opened [(1, name)]).
Proof.
  intros Hline Hws Hws1 Hne1 Hname Hne Hws2.
  unfold matchHere.
  set (s0 := ws ++ str "package" ++ ws1 ++ name ++ ws2 ++ str ";" ++ post).
  assert (Hcap : substring s0 (0 + length ws + 7 + length ws1)
                   (0 + length ws + 7 + length ws1 + length name) = name).
  { unfold s0.
    replace (ws ++ str "package" ++ ws1 ++ name ++ ws2 ++ str ";" ++ post)
      with ((ws ++ str "package" ++ ws1) ++ name ++ (ws2 ++ str ";" ++ post))
      by (now rewrite <- !app_assoc).
    replace (0 + length ws + 7 + length ws1)
      with (length (ws ++ str "package" ++ ws1))
      by (rewrite !length_app; simpl; lia).
    now apply substring_middle. }
  do 2 eexists.
  change (source packageRegex) with
    ([Bol; Star space] ++ lit "package" ++
     [Plus space; Open 1; Plus wordOrDot; Close 1; Star space] ++ lit ";").
  cbn [app run]. rewrite Hline.
  apply greedy_takes; [exact Hws|reflexivity|discriminate|]. intros prev1.
  cbn -[greedy Nat.add].
  apply greedy_takes; [exact Hws1| |auto|].
  { destruct name as [|c name']; [now elim Hne|]. simpl.
    inversion Hname; subst. now apply wordOrDot_not_space. }
  intros prev2. cbn [run].
  apply greedy_takes; [exact Hname| |auto|].
  { destruct ws2 as [|c ws2']; [reflexivity|]. simpl.
    inversion Hws2; subst. now apply space_not_wordOrDot. }
  intros prev3. cbn [run].
  apply greedy_takes; [exact Hws2|reflexivity|discriminate|]. intros prev4.
  cbn -[substring Nat.add].
  replace (S (S (S (S (S (S (S (0 + length ws))))))) + length ws1)
    with (0 + length ws + 7 + length ws1) by lia.
  rewrite Hcap. reflexivity.
Qed.

Lemma lineStartAfter_charBefore pre (x : jsstring) :
  lineStartAfter pre ->
  atLineStart packageRegex (charBefore (pre ++ x) (length pre)) = true.
Proof.
  intros [->|(p & c & -> & Hc)]; [reflexivity|].
  rewrite length_app, Nat.add_1_r. simpl charBefore.
  rewrite <- app_assoc, nth_error_app2, Nat.sub_diag by lia.
  simpl. exact Hc.
Qed.

Lemma extractPackageName_declared pre ws ws1 name ws2 post :
  lineStartAfter pre ->
  Forall (fun c => isSpace c = true) ws ->
  Forall (fun c => isSpace c = true) ws1 -> ws1 <> [] ->
  Forall (fun c => isWordOrDot c = true) name -> name <> [] ->
  Forall (fun c => isSpace c = true) ws2 ->
  (forall j, j < length pre ->
     matchAt packageRegex
       (pre ++ ws ++ str "package" ++ ws1 ++ name ++ ws2 ++ str ";" ++ post) j
     = None) ->
  extractPackageName
    (pre ++ ws ++ str "package" ++ ws1 ++ name ++ ws2 ++ str ";" ++ post) = name.
Proof.
  intros Hline Hws Hws1 Hne1 Hname Hne Hws2 Hnone.
  destruct (package_declared_here
              (charBefore
                 (pre ++ ws ++ str "package" ++ ws1 ++ name ++ ws2 ++
                  str ";" ++ post) (length pre))
              post (lineStartAfter_charBefore _ Hline)
              Hws Hws1 Hne1 Hname Hne Hws2) as (len & opened & Hm).
  rewrite <- matchAt_app in Hm.
  apply strMatch_at in Hm; [|reflexivity|exact Hnone].
  destruct Hm as (m & Hm & _ & Hgr).
  unfold extractPackageName. rewrite Hm. unfold capture, group.
  now rewrite Hgr.
Qed.

(** ** Every group of the patterns is captured *)

Section Groups.

Variable re : RegExp.
Variable s0 : jsstring.

Lemma greedy_post (Q P : caps -> Prop) a k :
  (forall pos prev rest c e c',
      Q c -> k pos prev rest c = Some (e, c') -> P c') ->
  forall rest need pos prev c e c',
    Q c -> greedy re a k need pos prev rest c = Some (e, c') -> P c'.
Proof.
  intros Hk. induction rest as [|ch rest IH]; intros need pos prev c e c' Hq H;
    simpl in H.
  - destruct need; [discriminate|]. eapply Hk; eauto.
  - destruct (atomMatches re a ch).
    + destruct (greedy re a k false (S pos) (Some ch) rest c)
        as [[e1 c1]|] eqn:E.
      * inversion H; subst. eapply IH; eauto.
      * destruct need; [discriminate|]. eapply Hk; eauto.
    + destruct need; [discriminate|]. eapply Hk; eauto.
Qed.

Lemma holds_open o cl n pos c :
  holds o cl c -> holds (n :: o) cl (openGroup n pos c).
Proof.
  intros [Ho Hc]. split; [|exact Hc].
  intros m Hm. simpl. destruct (Nat.eqb n m) eqn:E; [discriminate|].
  apply Ho. destruct Hm as [->|Hm]; [|exact Hm].
  now rewrite Nat.eqb_refl in E.
Qed.

Lemma holds_close o cl n pos c :
  holds o cl c ->
  holds o (if existsb (Nat.eqb n) o then n :: cl else cl)
        (closeGroup s0 n pos c).
Proof.
  intros [Ho Hc]. unfold closeGroup.
  destruct (existsb (Nat.eqb n) o) eqn:E.
  - apply existsb_exists in E. destruct E as (m & Hm & Hnm).
    apply Nat.eqb_eq in Hnm. subst m.
    destruct (assoc n (opened c)) as [from|] eqn:Ea;
      [|now elim (Ho n Hm)].
    split; [exact Ho|]. intros m Hin. simpl.
    destruct (Nat.eqb n m) eqn:Em; [discriminate|].
    apply Hc. destruct Hin as [->|Hin]; [|exact Hin].
    now rewrite Nat.eqb_refl in Em.
  - destruct (assoc n (opened c)); [|now split].
    split; [exact Ho|]. intros m Hin. simpl.
    destruct (Nat.eqb n m); [discriminate|]. now apply Hc.
Qed.

Lemma run_groups r :
  forall o cl pos prev rest c e c',
    holds o cl c -> run re s0 r pos prev rest c = Some (e, c') ->
    forall n, In n (groupsClosed r o cl) -> assoc n (closed c') <> None.
Proof.
  induction r as [|nd r IH]; intros o cl pos prev rest c e c' Hh H; simpl in H.
  - inversion H; subst. apply Hh.
  - destruct nd; simpl.
    + destruct rest as [|ch rest]; [discriminate|].
      destruct (atomMatches re a ch); [|discriminate].
      eapply IH; [exact Hh|exact H].
    + eapply greedy_post
        with (Q := holds o cl)
             (P := fun c1 => forall n, In n (groupsClosed r o cl) ->
                                       assoc n (closed c1) <> None);
        [|exact Hh|exact H].
      intros ? ? ? ? ? ? Hq Hr. eapply IH; [exact Hq|exact Hr].
    + eapply greedy_post
        with (Q := holds o cl)
             (P := fun c1 => forall n, In n (groupsClosed r o cl) ->
                                       assoc n (closed c1) <> None);
        [|exact Hh|exact H].
      intros ? ? ? ? ? ? Hq Hr. eapply IH; [exact Hq|exact Hr].
    + eapply IH; [|exact H]. now apply holds_open.
    + eapply IH; [|exact H]. now apply holds_close.
    + destruct (atLineStart re prev); [|discriminate].
      eapply IH; [exact Hh|exact H].
Qed.

End Groups.

(** A match defines every group the pattern closes. *)
Lemma capture_closed re s m n :
  (exists c, matchAt re s (index m) = Some (length (matched m), c) /\
             groups m = closed c) ->
  In n (groupsClosed (source re) [] []) ->
  exists v, group m n = Some v /\ capture m n = v.
Proof.
  intros (c & Hm & Hg) Hin. unfold capture, group. rewrite Hg.
  unfold matchAt, matchHere in Hm.
  eapply run_groups in Hm; [| |exact Hin].
  - destruct (assoc n (closed c)) as [v|]; [eauto|now elim Hm].
  - split; intros k [].
Qed.

Lemma groupsClosed_patterns :
  groupsClosed (source packageRegex) [] [] = [1] /\
  groupsClosed (source serviceRegex) [] [] = [1] /\
  groupsClosed (source rpcStartRegex) [] [] = [3; 2; 1] /\
  groupsClosed (source bodyRegex) [] [] = [1] /\
  (forall method, groupsClosed (source (pathRegex method)) [] [] = [1]).
Proof.
  repeat split. intros []; reflexivity.
Qed.

(** * Further properties of the parser *)

(** ** The matcher against what a pattern denotes *)

Lemma greedy_sound re a k : forall rest need pos prev c res,
  greedy re a k need pos prev rest c = Some res ->
  exists v rest' prev',
    rest = v ++ rest' /\ (need = true -> v <> []) /\
    Forall (fun ch => atomMatches re a ch = true) v /\
    k (pos + length v) prev' rest' c = Some res.
Proof.
  assert (Hstop : forall rest pos prev c res,
             k pos prev rest c = Some res ->
             exists v rest' prev',
               rest = v ++ rest' /\ (false = true -> v <> []) /\
               Forall (fun ch => atomMatches re a ch = true) v /\
               k (pos + length v) prev' rest' c = Some res).
  { intros rest pos prev c res H. exists [], rest, prev.
    simpl. rewrite Nat.add_0_r. repeat split; auto; discriminate. }
  induction rest as [|ch rest IH]; intros need pos prev c res H; simpl in H.
  - destruct need; [discriminate|]. exact (Hstop _ _ _ _ _ H).
  - destruct (atomMatches re a ch) eqn:Ea.
    + destruct (greedy re a k false (S pos) (Some ch) rest c) as [r1|] eqn:E.
      * inversion H; subst. apply IH in E.
        destruct E as (v & rest' & prev' & -> & _ & Hall & Hk).
        exists (ch :: v), rest', prev'. simpl.
        repeat split; [discriminate|now constructor|].
        now rewrite <- Nat.add_succ_comm.
      * destruct need; [discriminate|]. exact (Hstop _ _ _ _ _ H).
    + destruct need; [discriminate|]. exact (Hstop _ _ _ _ _ H).
Qed.

Section Denotes.

Variable re : RegExp.
Variable s0 : jsstring.

Lemma agrees_consume pos v rest c og cl :
  agrees s0 pos (v ++ rest) c og cl ->
  agrees s0 (pos + length v) rest c (extend og v) cl.
Proof.
  intros (Hsk & Hcl & Hog). split; [|split; [exact Hcl|]].
  - rewrite Nat.add_comm, <- skipn_skipn, Hsk. apply skipn_app_length.
  - unfold extend. induction Hog as [|o g os gs (Hf & Hp & Hs) _ IH]; simpl;
      constructor; [|exact IH].
    simpl. split; [exact Hf|]. split; [rewrite length_app; lia|].
    unfold substring in *.
    assert (Hsplit : skipn (snd o) s0 = snd g ++ v ++ rest).
    { rewrite <- (firstn_skipn (pos - snd o) (skipn (snd o) s0)).
      rewrite Hs, skipn_skipn.
      replace (pos - snd o + snd o) with pos by lia. now rewrite Hsk. }
    rewrite Hsplit.
    replace (pos + length v - snd o) with (length (snd g) + length v) by lia.
    rewrite firstn_app, firstn_all2 by lia.
    replace (length (snd g) + length v - length (snd g)) with (length v) by lia.
    now rewrite firstn_app, Nat.sub_diag, firstn_all, app_nil_r.
Qed.

Lemma agrees_open n pos rest c og cl :
  agrees s0 pos rest c og cl ->
  agrees s0 pos rest (openGroup n pos c) ((n, []) :: og) cl.
Proof.
  intros (Hsk & Hcl & Hog). split; [exact Hsk|]. split; [exact Hcl|].
  simpl. constructor; [|exact Hog]. simpl.
  split; [reflexivity|]. split; [lia|].
  unfold substring. now rewrite Nat.sub_diag.
Qed.

Lemma agrees_close n pos rest c og cl :
  agrees s0 pos rest c og cl ->
  agrees s0 pos rest (closeGroup s0 n pos c) og
         (match assoc n og with Some v => (n, v) :: cl | None => cl end).
Proof.
  intros (Hsk & Hcl & Hog). unfold closeGroup.
  assert (Ha : match assoc n (opened c), assoc n og with
               | Some p, Some v => substring s0 p pos = v
               | None, None => True
               | _, _ => False
               end).
  { induction Hog as [|[k p] [k' v] os gs (Hf & _ & Hs) _ IH]; simpl; [exact I|].
    simpl in Hf, Hs. subst k'. destruct (Nat.eqb k n); [exact Hs|exact IH]. }
  destruct (assoc n (opened c)) as [p|], (assoc n og) as [v|];
    try contradiction.
  - split; [exact Hsk|]. split; [simpl; now rewrite Ha, Hcl|exact Hog].
  - now split.
Qed.

(** Every result of the matcher is one the pattern denotes. *)
Lemma run_denotes r :
  forall pos prev rest c og cl e c',
    agrees s0 pos rest c og cl ->
    run re s0 r pos prev rest c = Some (e, c') ->
    denotes re r pos prev rest og cl e (closed c').
Proof.
  induction r as [|nd r IH]; intros pos prev rest c og cl e c' Hag H;
    simpl in H.
  - inversion H; subst. destruct Hag as (_ & Hcl & _). simpl. auto.
  - destruct nd; simpl.
    + destruct rest as [|ch rest]; [discriminate|].
      destruct (atomMatches re a ch) eqn:Ea; [|discriminate].
      exists ch, rest. split; [reflexivity|]. split; [exact Ea|].
      eapply IH; [|exact H].
      rewrite <- Nat.add_1_r.
      change 1 with (length [ch]). apply agrees_consume. exact Hag.
    + apply greedy_sound in H.
      destruct H as (v & rest' & prev' & -> & _ & Hall & Hk).
      exists v, rest', prev'. split; [reflexivity|]. split; [exact Hall|].
      eapply IH; [|exact Hk]. now apply agrees_consume.
    + apply greedy_sound in H.
      destruct H as (v & rest' & prev' & -> & Hne & Hall & Hk).
      exists v, rest', prev'. split; [reflexivity|]. split; [now apply Hne|].
      split; [exact Hall|].
      eapply IH; [|exact Hk]. now apply agrees_consume.
    + eapply IH; [|exact H]. now apply agrees_open.
    + eapply IH; [|exact H]. now apply agrees_close.
    + destruct (atLineStart re prev) eqn:El; [|discriminate].
      split; [reflexivity|]. eapply IH; [exact Hag|exact H].
Qed.

End Denotes.

Lemma matchHere_denotes re prev s len c :
  matchHere re prev s = Some (len, c) ->
  denotes re (source re) 0 prev s [] [] len (closed c).
Proof.
  unfold matchHere. apply run_denotes.
  split; [reflexivity|]. split; [reflexivity|constructor].
Qed.

(** ** What the groups of the patterns capture *)

Ltac unpack :=
  repeat match goal with
         | H : exists _, _ |- _ => destruct H
         | H : _ /\ _ |- _ => destruct H
         end.

Lemma cls_plain re p v :
  ignoreCase re = false ->
  Forall (fun ch => atomMatches re (Cls false p) ch = true) v ->
  Forall (fun ch => p ch = true) v.
Proof.
  intros Hi. apply Forall_impl. intros ch. simpl. rewrite Hi. auto.
Qed.

Lemma notQuote_plain re v :
  Forall (fun ch => atomMatches re notQuote ch = true) v ->
  Forall (fun ch => isQuote ch = false) v.
Proof.
  apply Forall_impl. intros ch. simpl.
  destruct (isQuote ch); [|reflexivity].
  destruct (ignoreCase re); discriminate.
Qed.

Lemma chr_plain re c ch :
  ignoreCase re = false -> atomMatches re (Chr c) ch = true -> ch = c.
Proof.
  intros Hi. simpl. rewrite Hi. intros H. apply N.eqb_eq in H. auto.
Qed.

Lemma isMatch_capture re s m v :
  isMatch re s m ->
  (forall prev x len c,
      matchHere re prev x = Some (len, c) -> assoc 1 (closed c) = Some v) ->
  capture m 1 = v.
Proof.
  intros (c & Hm & Hg) H. unfold capture, group. rewrite Hg.
  now rewrite (H _ _ _ _ Hm).
Qed.

Lemma service_groups prev s len c :
  matchHere serviceRegex prev s = Some (len, c) ->
  exists name rest,
    closed c = [(1, name)] /\ identifier name /\ s = str "service" ++ rest.
Proof.
  intros H. apply matchHere_denotes in H.
  cbn -[atomMatches N.eqb] in H. unpack. subst.
  repeat match goal with
         | H : atomMatches _ (Chr _) _ = true |- _ =>
             apply chr_plain in H; [subst|reflexivity]
         end.
  eexists _, _. split; [eassumption|]. split; [|reflexivity].
  split; [assumption|]. eapply cls_plain; cycle 1; [eassumption|reflexivity].
Qed.

Lemma rpc_groups prev s len c :
  matchHere rpcStartRegex prev s = Some (len, c) ->
  exists name input output rest,
    closed c = [(3, output); (2, input); (1, name)] /\
    identifier name /\ identifier input /\ dottedIdentifier output /\
    s = str "rpc" ++ rest.
Proof.
  intros H. apply matchHere_denotes in H.
  cbn -[atomMatches N.eqb] in H. unpack. subst.
  repeat match goal with
         | H : atomMatches _ (Chr _) _ = true |- _ =>
             apply chr_plain in H; [subst|reflexivity]
         end.
  eexists _, _, _, _. split; [eassumption|].
  repeat split; try assumption;
    (eapply cls_plain; cycle 1; [eassumption|reflexivity]).
Qed.

Lemma package_groups prev s len c :
  matchHere packageRegex prev s = Some (len, c) ->
  exists name ws rest,
    closed c = [(1, name)] /\ dottedIdentifier name /\
    s = ws ++ str "package" ++ rest.
Proof.
  intros H. apply matchHere_denotes in H.
  cbn -[atomMatches N.eqb atLineStart] in H. unpack. subst.
  repeat match goal with
         | H : atomMatches _ (Chr _) _ = true |- _ =>
             apply chr_plain in H; [subst|reflexivity]
         end.
  eexists _, _, _. split; [eassumption|]. split; [|reflexivity].
  split; [assumption|]. eapply cls_plain; cycle 1; [eassumption|reflexivity].
Qed.

Lemma body_groups prev s len c :
  matchHere bodyRegex prev s = Some (len, c) ->
  exists v, closed c = [(1, v)] /\ quoteFree v.
Proof.
  intros H. apply matchHere_denotes in H.
  cbn -[atomMatches N.eqb] in H. unpack. subst.
  eexists. split; [eassumption|].
  split; [assumption|]. eapply notQuote_plain; eassumption.
Qed.

Lemma path_groups method prev s len c :
  matchHere (pathRegex method) prev s = Some (len, c) ->
  exists v, closed c = [(1, v)] /\ quoteFree v.
Proof.
  intros H. apply matchHere_denotes in H.
  destruct method; cbn -[atomMatches N.eqb] in H; unpack; subst;
    (eexists; split; [eassumption|];
     split; [assumption|]; eapply notQuote_plain; eassumption).
Qed.

Lemma service_match s m :
  isMatch serviceRegex s m -> identifier (capture m 1).
Proof.
  intros (c & Hm & Hg). unfold matchAt in Hm. apply service_groups in Hm.
  destruct Hm as (name & rest & Hcl & Hid & _).
  unfold capture, group. rewrite Hg, Hcl. exact Hid.
Qed.

Lemma rpc_match s m :
  isMatch rpcStartRegex s m ->
  identifier (capture m 1) /\ identifier (capture m 2) /\
  dottedIdentifier (capture m 3).
Proof.
  intros (c & Hm & Hg). unfold matchAt in Hm. apply rpc_groups in Hm.
  destruct Hm as (name & input & output & rest & Hcl & H1 & H2 & H3 & _).
  unfold capture, group. rewrite Hg, Hcl. simpl. auto.
Qed.

Lemma strMatch_isMatch re s m :
  global re = false -> strMatch s re = Some m -> isMatch re s m.
Proof.
  intros Hg H. now apply strMatch_leftmost in H.
Qed.

Lemma path_match method s m :
  strMatch s (pathRegex method) = Some m -> quoteFree (capture m 1).
Proof.
  intros H. apply strMatch_isMatch in H; [|reflexivity].
  destruct H as (c & Hm & Hg). unfold matchAt in Hm. apply path_groups in Hm.
  destruct Hm as (v & Hcl & Hq).
  unfold capture, group. rewrite Hg, Hcl. exact Hq.
Qed.

Lemma body_match s m :
  strMatch s bodyRegex = Some m -> quoteFree (capture m 1).
Proof.
  intros H. apply strMatch_isMatch in H; [|reflexivity].
  destruct H as (c & Hm & Hg). unfold matchAt in Hm. apply body_groups in Hm.
  destruct Hm as (v & Hcl & Hq).
  unfold capture, group. rewrite Hg, Hcl. exact Hq.
Qed.

(** ** The service matches *)

Lemma extractServices_step_push content m acc :
  extractServices_step content m acc =
  acc ++ extractServices_step content m [].
Proof.
  unfold extractServices_step.
  destruct (truthy _); [reflexivity|now rewrite app_nil_r].
Qed.

Lemma extractServices_flat content :
  extractServices content =
  (ms <- visited serviceRegex content (S (length content)) 0 ;;
   Some (flat_map (fun m => extractServices_step content m []) ms)).
Proof.
  unfold extractServices. rewrite whileExec_fold.
  destruct (visited serviceRegex content _ 0) as [ms|]; [|reflexivity].
  now rewrite (fold_left_pushes _ (extractServices_step_push content)).
Qed.

Lemma visited_isMatch re s fuel li ms :
  global re = true -> visited re s fuel li = Some ms ->
  Forall (isMatch re s) ms.
Proof. intros Hg H. eapply visited_matches; eassumption. Qed.

(** Every service match that [extractServices] returns has an
    identifier as its name and a non-empty body: a service whose braces
    hold nothing is left out. *)
Lemma extractServices_named (content : jsstring) :
  exists sms,
    extractServices content = Some sms /\
    Forall (fun sm => identifier (ServiceMatch.name sm) /\
                      ServiceMatch.body sm <> []) sms.
Proof.
  destruct (extractServices_total content) as [sms Hs].
  exists sms. split; [exact Hs|].
  rewrite extractServices_flat in Hs.
  destruct (visited serviceRegex content _ 0) as [ms|] eqn:Ev; [|discriminate].
  inversion Hs; subst. apply Forall_flat_map.
  apply visited_isMatch in Ev; [|reflexivity].
  eapply Forall_impl; [|exact Ev]. intros m Hm.
  unfold extractServices_step.
  destruct (extractBracedContent content _) as [|b body] eqn:Eb; simpl;
    constructor; [|constructor].
  simpl. split; [now apply service_match in Hm|discriminate].
Qed.

(** ** The binding and the methods *)

Lemma parseHttpAnnotation_for_sound optionsBlock ms h :
  parseHttpAnnotation_for optionsBlock ms = Some h ->
  exists before after pm,
    ms = before ++ HttpAnnotation.method h :: after /\
    (forall u, In u before -> strMatch optionsBlock (pathRegex u) = None) /\
    strMatch optionsBlock (pathRegex (HttpAnnotation.method h)) = Some pm /\
    HttpAnnotation.path h = capture pm 1.
Proof.
  induction ms as [|u ms IH]; simpl; [discriminate|].
  destruct (strMatch optionsBlock (pathRegex u)) as [pm|] eqn:E.
  - intros H. inversion H; subst. exists [], ms, pm. simpl.
    repeat split; auto. intros v [].
  - intros H. destruct (IH H) as (before & after & pm & -> & Hb & Hm & Hp).
    exists (u :: before), after, pm. repeat split; auto.
    intros v [<-|Hv]; auto.
Qed.

(** A binding is returned only for an options block that holds the
    marker; its verb is the first of GET, POST, PUT, PATCH, DELETE whose
    pattern matches the block, its path is the group of that match, and
    the path and the body selector are non-empty and hold no quote. *)
Lemma parseHttpAnnotation_sound optionsBlock h :
  parseHttpAnnotation optionsBlock = Some h ->
  includes marker optionsBlock = true /\
  (exists before after pm,
      httpMethods = before ++ HttpAnnotation.method h :: after /\
      (forall u, In u before -> strMatch optionsBlock (pathRegex u) = None) /\
      strMatch optionsBlock (pathRegex (HttpAnnotation.method h)) = Some pm /\
      HttpAnnotation.path h = capture pm 1) /\
  quoteFree (HttpAnnotation.path h) /\
  (forall b, HttpAnnotation.body h = Some b -> quoteFree b).
Proof.
  unfold parseHttpAnnotation.
  destruct (includes marker optionsBlock); [|discriminate]. cbn [negb].
  intros H. split; [reflexivity|].
  pose proof (parseHttpAnnotation_for_body _ _ H) as Hbody.
  apply parseHttpAnnotation_for_sound in H.
  destruct H as (before & after & pm & Hms & Hb & Hm & Hp).
  split; [now exists before, after, pm|].
  split; [rewrite Hp; now apply path_match in Hm|].
  intros b Hb'. rewrite Hbody in Hb'.
  destruct (strMatch optionsBlock bodyRegex) as [bm|] eqn:E; [|discriminate].
  inversion Hb'; subst. now apply body_match in E.
Qed.


(** Every method [extractMethods] returns is well formed: its name and
    input type are identifiers, its output type a dotted identifier, and
    its path and body selector are non-empty and hold no quote. *)
Lemma extractMethods_sound (serviceBody : jsstring) :
  exists ms,
    extractMethods serviceBody = Some ms /\ Forall wellFormedMethod ms.
Proof.
  destruct (extractMethods_total serviceBody) as [ms Hm].
  exists ms. split; [exact Hm|].
  rewrite extractMethods_flat in Hm. unfold rpcMatches in Hm.
  destruct (visited rpcStartRegex serviceBody _ 0) as [rs|] eqn:Ev;
    [|discriminate].
  inversion Hm; subst. apply Forall_flat_map.
  apply visited_isMatch in Ev; [|reflexivity].
  eapply Forall_impl; [|exact Ev]. intros m Hrm.
  unfold extractMethods_step.
  destruct (parseHttpAnnotation (optionsBlockOf serviceBody m)) as [h|] eqn:E;
    simpl; constructor; [|constructor].
  apply rpc_match in Hrm. destruct Hrm as (H1 & H2 & H3).
  apply parseHttpAnnotation_sound in E. destruct E as (_ & _ & Hp & Hb).
  unfold wellFormedMethod. simpl. auto.
Qed.

(** ** The package name and the model *)

Lemma startsWith_app p (post : jsstring) : startsWith p (p ++ post) = true.
Proof.
  induction p as [|a p IH]; simpl; [reflexivity|].
  now rewrite N.eqb_refl, IH.
Qed.

Lemma includes_app pre p (post : jsstring) :
  includes p (pre ++ p ++ post) = true.
Proof.
  induction pre as [|b pre IH]; simpl.
  - pose proof (startsWith_app p post) as H.
    destruct (p ++ post); simpl; now rewrite H.
  - rewrite IH. apply orb_true_r.
Qed.

Lemma includes_skipn p (s : jsstring) i rest :
  skipn i s = p ++ rest -> includes p s = true.
Proof.
  intros H. rewrite <- (firstn_skipn i s), H. apply includes_app.
Qed.

(** The package name [extractPackageName] returns holds only [\w]
    code units and dots, and it is non-empty only for a text that
    holds the keyword [package]. *)
Lemma extractPackageName_chars (content : jsstring) :
  Forall (fun ch => isWordOrDot ch = true) (extractPackageName content) /\
  (extractPackageName content <> [] ->
   includes (str "package") content = true).
Proof.
  unfold extractPackageName.
  destruct (strMatch content packageRegex) as [m|] eqn:E;
    [|split; [constructor|intros H; now elim H]].
  apply strMatch_isMatch in E; [|reflexivity].
  destruct E as (c & Hm & Hg). unfold matchAt in Hm.
  destruct (package_groups _ _ Hm) as (name & ws & rest & Hcl & Hid & Hs).
  unfold capture, group. rewrite Hg, Hcl. simpl.
  split; [apply Hid|]. intros _.
  rewrite <- (firstn_skipn (index m) content), Hs, app_assoc.
  apply includes_app.
Qed.


Lemma word_wordOrDot v :
  Forall (fun ch => isWord ch = true) v ->
  Forall (fun ch => isWordOrDot ch = true) v.
Proof.
  apply Forall_impl. intros ch H. unfold isWordOrDot. now rewrite H.
Qed.

Lemma fullNameOf_dotted packageName serviceName :
  Forall (fun ch => isWordOrDot ch = true) packageName ->
  identifier serviceName ->
  dottedIdentifier (fullNameOf packageName serviceName).
Proof.
  intros Hp [Hne Hs]. apply word_wordOrDot in Hs. unfold fullNameOf.
  destruct packageName as [|c p]; simpl; [now split|].
  split; [discriminate|].
  inversion Hp; subst. constructor; [assumption|].
  apply Forall_app. split; [assumption|]. now constructor.
Qed.

Lemma parseProtoFile_wellFormed content :
  exists svcs,
    parseProtoFile content = Some svcs /\ Forall wellFormedService svcs.
Proof.
  destruct (parseProtoFile_entries content) as (sms & svcs & Hs & Hp & HF).
  exists svcs. split; [exact Hp|].
  destruct (extractServices_named content) as (sms' & Hs' & Hsm).
  rewrite Hs in Hs'. inversion Hs'; subst sms'.
  apply Forall_forall. intros s Hin.
  eapply Forall2_In_r in Hin; [|exact HF].
  destruct Hin as (sm & Hsm_in & Hpk & Hsn & Hfn & Hms & Hne).
  apply filter_In in Hsm_in. destruct Hsm_in as [Hsm_in _].
  rewrite Forall_forall in Hsm. destruct (Hsm sm Hsm_in) as [Hid _].
  destruct (extractMethods_sound (ServiceMatch.body sm)) as (ms & Hms' & Hwf).
  rewrite Hms in Hms'. inversion Hms'; subst ms.
  pose proof (proj1 (extractPackageName_chars content)) as Hpkg.
  unfold wellFormedService. rewrite Hsn, Hpk, Hfn.
  repeat split; try assumption; try apply Hid.
  - now apply fullNameOf_dotted.
  - now apply fullNameOf_dotted.
Qed.

Lemma parseProtoFiles_for_acc files :
  forall acc,
    parseProtoFiles_for files acc =
    (model <- parseProtoFiles_for files [] ;; Some (acc ++ model)).
Proof.
  induction files as [|content files IH]; intros acc; simpl.
  - now rewrite app_nil_r.
  - destruct (parseProtoFile content) as [services|]; [|reflexivity].
    rewrite (IH (acc ++ services)), (IH services).
    destruct (parseProtoFiles_for files []); [|reflexivity].
    now rewrite app_assoc.
Qed.

Lemma parseProtoFiles_cons content files :
  parseProtoFiles (content :: files) =
  (services <- parseProtoFile content ;;
   model <- parseProtoFiles files ;; Some (services ++ model)).
Proof.
  unfold parseProtoFiles. simpl.
  destruct (parseProtoFile content) as [services|]; [|reflexivity].
  apply parseProtoFiles_for_acc.
Qed.

(** The model is well formed.  For every text, and for every list of
    texts, each service of the model has an identifier as its name, a
    package name of [\w] code units and dots, a full name that is a dotted
    identifier, and at least one method; each method is well formed. *)
Lemma models_wellFormed :
  (forall content,
      exists svcs,
        parseProtoFile content = Some svcs /\ Forall wellFormedService svcs) /\
  (forall files,
      exists model,
        parseProtoFiles files = Some model /\ Forall wellFormedService model).
Proof.
  split; [exact parseProtoFile_wellFormed|].
  induction files as [|content files IH].
  - exists []. split; [reflexivity|constructor].
  - destruct IH as (model & Hm & Hwf).
    destruct (parseProtoFile_wellFormed content) as (svcs & Hs & Hwf').
    exists (svcs ++ model). rewrite parseProtoFiles_cons, Hs, Hm.
    split; [reflexivity|]. apply Forall_app. now split.
Qed.

(** ** Connect paths *)

Lemma dotted_no_slash v :
  Forall (fun ch => isWordOrDot ch = true) v -> ~ In slash v.
Proof.
  intros H Hin. rewrite Forall_forall in H. specialize (H _ Hin).
  vm_compute in H. discriminate.
Qed.

(** X6: on the model the Connect path tells the service and the method
    apart: two services of the model and two methods with the same Connect
    path have the same full name and the same method name. *)
Theorem getConnectPath_injective files model s1 s2 m1 m2 :
  parseProtoFiles files = Some model ->
  In s1 model -> In s2 model ->
  getConnectPath s1 m1 = getConnectPath s2 m2 ->
  ParsedService.fullName s1 = ParsedService.fullName s2 /\
  ParsedMethod.name m1 = ParsedMethod.name m2.
Proof.
  intros Hm H1 H2 Heq.
  destruct (proj2 models_wellFormed files) as (model' & Hm' & Hwf).
  rewrite Hm in Hm'. inversion Hm'; subst model'.
  rewrite Forall_forall in Hwf.
  destruct (Hwf _ H1) as (_ & _ & [_ Hf1] & _).
  destruct (Hwf _ H2) as (_ & _ & [_ Hf2] & _).
  apply dotted_no_slash in Hf1, Hf2.
  unfold getConnectPath in Heq. simpl in Heq. inversion Heq as [Heq'].
  apply app_inj_pivot in Heq'.
  destruct Heq' as [[[Hin _]|[_ Hin]]|Hok]; [contradiction|contradiction|exact Hok].
Qed.

Lemma getConnectPath_injective_witness :
  str "users.v1.UserService" = str "users.v1.UserService" /\
  str "GetUser" = str "GetUser".
Proof.
  apply (@getConnectPath_injective
           [Samples.getUser]
           [ParsedService.mk (str "users.v1") (str "UserService")
              (str "users.v1.UserService")
              [ParsedMethod.mk (str "GetUser") (str "GetUserRequest")
                 (str "GetUserResponse") GET (str "/v1/users/{user_id}") None]]
           (ParsedService.mk (str "users.v1") (str "UserService")
              (str "users.v1.UserService")
              [ParsedMethod.mk (str "GetUser") (str "GetUserRequest")
                 (str "GetUserResponse") GET (str "/v1/users/{user_id}") None])
           (ParsedService.mk (str "users.v1") (str "UserService")
              (str "users.v1.UserService")
              [ParsedMethod.mk (str "GetUser") (str "GetUserRequest")
                 (str "GetUserResponse") GET (str "/v1/users/{user_id}") None])
           (ParsedMethod.mk (str "GetUser") (str "GetUserRequest")
              (str "GetUserResponse") GET (str "/v1/users/{user_id}") None)
           (ParsedMethod.mk (str "GetUser") (str "Other") (str "Other")
              POST (str "/other") None)).
  - vm_compute. reflexivity.
  - left. reflexivity.
  - left. reflexivity.
  - reflexivity.
Defined.

(** ** Texts without the keywords *)

Lemma exec_none_without re s li keyword :
  global re = true ->
  (forall prev x len c,
      matchHere re prev x = Some (len, c) -> exists rest, x = keyword ++ rest) ->
  includes keyword s = false ->
  fst (exec re li s) = None.
Proof.
  intros Hg Hk Hinc.
  destruct (exec re li s) as [[m|] li'] eqn:E; [|reflexivity].
  destruct (exec_global _ _ _ Hg E) as (_ & _ & _ & (c & Hm & _) & _).
  unfold matchAt in Hm. destruct (Hk _ _ _ _ Hm) as [rest Hs].
  apply includes_skipn in Hs. congruence.
Qed.

Lemma whileExec_none_first {A} re s (step : MatchResult -> A -> A) fuel acc :
  fst (exec re 0 s) = None ->
  whileExec (S fuel) re s step 0 acc = Some acc.
Proof.
  simpl. destruct (exec re 0 s) as [[m|] li']; simpl; [discriminate|reflexivity].
Qed.

(** X7: a text that does not hold the keyword [service] gives the empty
    model, and a service body that does not hold the keyword [rpc] gives
    no method. *)
Theorem no_keyword_nothing_found :
  (forall content,
      includes (str "service") content = false ->
      extractServices content = Some [] /\ parseProtoFile content = Some []) /\
  (forall serviceBody,
      includes (str "rpc") serviceBody = false ->
      extractMethods serviceBody = Some []).
Proof.
  split.
  - intros content H.
    assert (Hs : extractServices content = Some []).
    { apply whileExec_none_first.
      apply exec_none_without with (keyword := str "service");
        [reflexivity| |exact H].
      intros prev x len c Hm. apply service_groups in Hm.
      destruct Hm as (_ & rest & _ & _ & ->). now exists rest. }
    split; [exact Hs|]. unfold parseProtoFile. now rewrite Hs.
  - intros serviceBody H. apply whileExec_none_first.
    apply exec_none_without with (keyword := str "rpc");
      [reflexivity| |exact H].
    intros prev x len c Hm. apply rpc_groups in Hm.
    destruct Hm as (_ & _ & _ & rest & _ & _ & _ & _ & ->). now exists rest.
Qed.

Lemma no_keyword_nothing_found_witness :
  extractServices (str "syntax = 'proto3'; message M {}") = Some [] /\
  parseProtoFile (str "syntax = 'proto3'; message M {}") = Some [].
Proof.
  apply (proj1 no_keyword_nothing_found). reflexivity.
Defined.

(** ** The brace scanner on every input *)

Lemma staysOpen_nil d : (0 < d)%Z -> staysOpen d [].
Proof. intros Hd n _. now destruct n. Qed.

Lemma staysOpen_cons_intro d ch s :
  (0 < d)%Z -> staysOpen (d + braceDelta ch) s -> staysOpen d (ch :: s).
Proof.
  intros Hd H [|n] Hn; simpl; [exact Hd|]. apply H. simpl in Hn. lia.
Qed.

Lemma staysOpen_prefix d a b : staysOpen d (a ++ b) -> staysOpen d a.
Proof.
  intros H n Hn. specialize (H n). rewrite length_app in H.
  rewrite firstn_app in H. replace (n - length a) with 0 in H by lia.
  simpl in H. rewrite app_nil_r in H. apply H. lia.
Qed.

(** From a positive depth a text either has a first brace that closes the
    region, or stays open to its end. *)
Lemma scan_cases rest : forall d,
  (0 < d)%Z ->
  (exists inner post,
      rest = inner ++ rbrace :: post /\ staysOpen d inner /\
      depthAfter d inner = 1%Z) \/
  staysOpen d rest.
Proof.
  induction rest as [|ch rest IH]; intros d Hd.
  - right. now apply staysOpen_nil.
  - destruct (Z_lt_le_dec 0 (d + braceDelta ch)) as [Hpos|Hle].
    + destruct (IH _ Hpos) as [(inner & post & -> & Hso & Hda)|Hso].
      * left. exists (ch :: inner), post. split; [reflexivity|].
        split; [now apply staysOpen_cons_intro|exact Hda].
      * right. now apply staysOpen_cons_intro.
    + left. exists [], rest. unfold braceDelta in Hle.
      destruct (N.eqb ch lbrace); [lia|].
      destruct (N.eqb_spec ch rbrace); [|lia].
      subst. split; [reflexivity|]. split; [now apply staysOpen_nil|].
      simpl. lia.
Qed.

Lemma extractBracedContent_closed content startIndex inner post :
  skipn startIndex content = inner ++ rbrace :: post ->
  staysOpen 1 inner -> depthAfter 1 inner = 1%Z ->
  extractBracedContent content startIndex = inner.
Proof.
  intros Hsk Hso Hda. unfold extractBracedContent.
  assert (Hlen : startIndex + length inner < length content).
  { apply (f_equal (@length _)) in Hsk.
    rewrite length_skipn, length_app in Hsk. simpl in Hsk. lia. }
  rewrite Hsk, scanBraces_open by exact Hso.
  rewrite scanBraces_step by lia. rewrite Hda.
  rewrite scanBraces_closed by (vm_compute; discriminate).
  replace (Z.of_nat (S (startIndex + length inner)) - 1)%Z
    with (Z.of_nat (startIndex + length inner)) by lia.
  rewrite slice_substring by lia. unfold substring. rewrite Hsk.
  replace (startIndex + length inner - startIndex) with (length inner) by lia.
  now rewrite firstn_app, Nat.sub_diag, firstn_all, app_nil_r.
Qed.

Lemma extractBracedContent_beyond content startIndex :
  length content <= startIndex ->
  extractBracedContent content startIndex = [].
Proof.
  intros H. unfold extractBracedContent.
  rewrite skipn_all2 by exact H. simpl scanBraces.
  unfold slice. rewrite skipn_all2; [now rewrite firstn_nil|].
  unfold clampIndex. destruct (Z.ltb_spec (Z.of_nat startIndex) 0); lia.
Qed.

Lemma removelast_split (l : jsstring) :
  exists tail, l = removelast l ++ tail /\ (l <> [] -> tail <> []).
Proof.
  destruct l as [|c l]; [exists []; split; auto|].
  exists [last (c :: l) c]. split; [|discriminate].
  apply app_removelast_last. discriminate.
Qed.


(** ** The counts of the response *)

Lemma methodCount_from l : forall a,
  fold_left (fun sum s => sum + length (ParsedService.methods s)) l a =
  a + methodCount l.
Proof.
  unfold methodCount.
  induction l as [|s l IH]; intros a; simpl; [lia|].
  rewrite (IH (a + _)), (IH (length _)). lia.
Qed.

Lemma methodCount_cons s l :
  methodCount (s :: l) = length (ParsedService.methods s) + methodCount l.
Proof. unfold methodCount at 1. simpl. apply methodCount_from. Qed.

Lemma methodCount_app l1 l2 :
  methodCount (l1 ++ l2) = methodCount l1 + methodCount l2.
Proof.
  induction l1 as [|s l1 IH]; simpl; [reflexivity|].
  rewrite !methodCount_cons, IH. lia.
Qed.

Lemma methodCount_services l :
  Forall wellFormedService l -> length l <= methodCount l.
Proof.
  induction 1 as [|s l (_ & _ & _ & Hne & _) _ IH]; [simpl; lia|].
  rewrite methodCount_cons. simpl.
  destruct (ParsedService.methods s); [now elim Hne|]. simpl. lia.
Qed.

(** ** The arguments of the local mode *)

Lemma strEq_eq a : forall b, strEq a b = true <-> a = b.
Proof.
  induction a as [|x a IH]; intros [|y b]; simpl; split; intros H;
    try discriminate; try reflexivity.
  - apply andb_true_iff in H. destruct H as [Hx Ha].
    apply N.eqb_eq in Hx. apply IH in Ha. now subst.
  - inversion H; subst. rewrite N.eqb_refl. now apply IH.
Qed.

Lemma strEq_neq a b : a <> b -> strEq a b = false.
Proof.
  intros H. apply not_true_is_false. intros E. now apply strEq_eq in E.
Qed.

Lemma indexOfFrom_absent args a : forall i,
  ~ In a args -> indexOfFrom args a i = (-1)%Z.
Proof.
  induction args as [|x args IH]; intros i H; simpl; [reflexivity|].
  rewrite strEq_neq by (intros ->; apply H; now left).
  apply IH. intros Hin. apply H. now right.
Qed.

Lemma indexOfFrom_first pre a post : forall i,
  ~ In a pre ->
  indexOfFrom (pre ++ a :: post) a i = (i + Z.of_nat (length pre))%Z.
Proof.
  induction pre as [|x pre IH]; intros i H; simpl.
  - rewrite (proj2 (strEq_eq a a) eq_refl). lia.
  - rewrite strEq_neq by (intros ->; apply H; now left).
    rewrite IH by (intros Hin; apply H; now right). lia.
Qed.

Lemma elementAt_after (pre : list jsstring) a d post :
  elementAt (pre ++ a :: d :: post) (Z.of_nat (length pre) + 1) = Some d.
Proof.
  unfold elementAt. destruct (Z.ltb_spec (Z.of_nat (length pre) + 1) 0); [lia|].
  replace (Z.to_nat (Z.of_nat (length pre) + 1)) with (length pre + 1) by lia.
  rewrite nth_error_app2 by lia.
  replace (length pre + 1 - length pre) with 1 by lia. reflexivity.
Qed.

Lemma main_outputDir_out pre d post :
  ~ In (str "--out") pre -> d <> [] ->
  main_outputDir (pre ++ str "--out" :: d :: post) = d.
Proof.
  intros Hpre Hd. unfold main_outputDir, main_outIndex, indexOf.
  rewrite !indexOfFrom_first by exact Hpre.
  rewrite !Z.add_0_l.
  assert (E : (Z.of_nat (length pre) =? -1)%Z = false)
    by (apply Z.eqb_neq; lia).
  rewrite !E. cbn [negb]. rewrite E. cbn [negb].
  rewrite elementAt_after. destruct d; [now elim Hd|reflexivity].
Qed.

Lemma find_first_positional flags d rest :
  Forall (fun a => startsWith (str "-") a = true) flags ->
  startsWith (str "-") d = false ->
  find (fun a => negb (startsWith (str "-") a)) (flags ++ d :: rest) = Some d.
Proof.
  intros Hf Hd. induction Hf as [|f flags Hfd _ IH]; simpl.
  - simpl in Hd. now rewrite Hd.
  - simpl in Hfd. now rewrite Hfd.
Qed.

Lemma main_protoDir_first flags d rest :
  Forall (fun a => startsWith (str "-") a = true) flags ->
  startsWith (str "-") d = false -> d <> [] ->
  main_protoDir (flags ++ d :: rest) = d.
Proof.
  intros Hf Hd Hne. unfold main_protoDir.
  rewrite find_first_positional by assumption.
  destruct d; [now elim Hne|reflexivity].
Qed.

Lemma main_outputDir_trailing pre :
  ~ In (str "--out") pre ->
  main_outputDir (pre ++ [str "--out"]) = str "./generated".
Proof.
  intros Hpre. unfold main_outputDir, main_outIndex, indexOf.
  rewrite !indexOfFrom_first by exact Hpre.
  rewrite !Z.add_0_l.
  assert (E : (Z.of_nat (length pre) =? -1)%Z = false)
    by (apply Z.eqb_neq; lia).
  rewrite !E. cbn [negb]. rewrite E. cbn [negb].
  unfold elementAt.
  destruct (Z.ltb_spec (Z.of_nat (length pre) + 1) 0); [lia|].
  replace (Z.to_nat (Z.of_nat (length pre) + 1)) with (length pre + 1) by lia.
  assert (Hn : nth_error (pre ++ [str "--out"]) (length pre + 1) = None)
    by (apply nth_error_None; rewrite length_app; simpl; lia).
  now rewrite Hn.
Qed.

Lemma main_outputDir_default args :
  ~ In (str "--out") args -> ~ In (str "-o") args ->
  main_outputDir args = str "./generated".
Proof.
  intros Hout Ho. unfold main_outputDir, main_outIndex, indexOf.
  rewrite !(@indexOfFrom_absent _ _ 0%Z Hout), !(@indexOfFrom_absent _ _ 0%Z Ho).
  reflexivity.
Qed.

Lemma main_protoDir_default args :
  Forall (fun a => startsWith (str "-") a = true) args ->
  main_protoDir args = str "./proto".
Proof.
  intros H. unfold main_protoDir.
  assert (Hf : find (fun a => negb (startsWith (str "-") a)) args = None).
  { induction H as [|a args Ha _ IH]; simpl; [reflexivity|].
    simpl in Ha. now rewrite Ha. }
  now rewrite Hf.
Qed.

(** * The further properties *)


(** X2: a binding is returned only for an options block that holds the
    marker; its verb is the first of GET, POST, PUT, PATCH, DELETE whose
    pattern matches the block, its path is the group of that match, and
    the path and the body selector are non-empty and hold no quote. *)
Theorem parseHttpAnnotation_binding optionsBlock h :
  parseHttpAnnotation optionsBlock = Some h ->
  includes marker optionsBlock = true /\
  (exists before after pm,
      httpMethods = before ++ HttpAnnotation.method h :: after /\
      (forall u, In u before -> strMatch optionsBlock (pathRegex u) = None) /\
      strMatch optionsBlock (pathRegex (HttpAnnotation.method h)) = Some pm /\
      HttpAnnotation.path h = capture pm 1) /\
  quoteFree (HttpAnnotation.path h) /\
  (forall b, HttpAnnotation.body h = Some b -> quoteFree b).
Proof.
  unfold parseHttpAnnotation.
  destruct (includes marker optionsBlock); [|discriminate]. cbn [negb].
  intros H. split; [reflexivity|].
  pose proof (parseHttpAnnotation_for_body _ _ H) as Hbody.
  apply parseHttpAnnotation_for_sound in H.
  destruct H as (before & after & pm & Hms & Hb & Hm & Hp).
  split; [now exists before, after, pm|].
  split; [rewrite Hp; now apply path_match in Hm|].
  intros b Hb'. rewrite Hbody in Hb'.
  destruct (strMatch optionsBlock bodyRegex) as [bm|] eqn:E; [|discriminate].
  inversion Hb'; subst. now apply body_match in E.
Qed.

Lemma parseHttpAnnotation_binding_witness :
  includes marker Samples.postWithBody = true /\
  quoteFree (str "/v1/users") /\
  (forall b, Some (str "*") = Some b -> quoteFree b).
Proof.
  destruct (@parseHttpAnnotation_binding Samples.postWithBody
              (HttpAnnotation.mk POST (str "/v1/users") (Some (str "*")))
              eq_refl) as (H1 & _ & H2 & H3).
  exact (conj H1 (conj H2 H3)).
Defined.

(** X3: every method [extractMethods] returns is well formed: its name and
    input type are identifiers, its output type a dotted identifier, and
    its path and body selector are non-empty and hold no quote. *)
Theorem extractMethods_wellFormed (serviceBody : jsstring) :
  exists ms,
    extractMethods serviceBody = Some ms /\ Forall wellFormedMethod ms.
Proof.
  destruct (extractMethods_total serviceBody) as [ms Hm].
  exists ms. split; [exact Hm|].
  rewrite extractMethods_flat in Hm. unfold rpcMatches in Hm.
  destruct (visited rpcStartRegex serviceBody _ 0) as [rs|] eqn:Ev;
    [|discriminate].
  inversion Hm; subst. apply Forall_flat_map.
  apply visited_isMatch in Ev; [|reflexivity].
  eapply Forall_impl; [|exact Ev]. intros m Hrm.
  unfold extractMethods_step.
  destruct (parseHttpAnnotation (optionsBlockOf serviceBody m)) as [h|] eqn:E;
    simpl; constructor; [|constructor].
  apply rpc_match in Hrm. destruct Hrm as (H1 & H2 & H3).
  apply parseHttpAnnotation_sound in E. destruct E as (_ & _ & Hp & Hb).
  unfold wellFormedMethod. simpl. auto.
Qed.

(** X4: the package name [extractPackageName] returns holds only [\w]
    code units and dots, and it is non-empty only for a text that
    holds the keyword [package]. *)
Theorem extractPackageName_dotted (content : jsstring) :
  Forall (fun ch => isWordOrDot ch = true) (extractPackageName content) /\
  (extractPackageName content <> [] ->
   includes (str "package") content = true).
Proof.
  unfold extractPackageName.
  destruct (strMatch content packageRegex) as [m|] eqn:E;
    [|split; [constructor|intros H; now elim H]].
  apply strMatch_isMatch in E; [|reflexivity].
  destruct E as (c & Hm & Hg). unfold matchAt in Hm.
  destruct (package_groups _ _ Hm) as (name & ws & rest & Hcl & Hid & Hs).
  unfold capture, group. rewrite Hg, Hcl. simpl.
  split; [apply Hid|]. intros _.
  rewrite <- (firstn_skipn (index m) content), Hs, app_assoc.
  apply includes_app.
Qed.

Lemma extractPackageName_dotted_witness :
  includes (str "package") Samples.getUser = true.
Proof.
  apply (proj2 (extractPackageName_dotted Samples.getUser)).
  vm_compute. discriminate.
Defined.

(** X5: the model is well formed.  For every text, and for every list of
    texts, each service of the model has an identifier as its name, a
    package name of [\w] code units and dots, a full name that is a dotted
    identifier, and at least one method; each method is well formed. *)
Theorem model_wellFormed :
  (forall content,
      exists svcs,
        parseProtoFile content = Some svcs /\ Forall wellFormedService svcs) /\
  (forall files,
      exists model,
        parseProtoFiles files = Some model /\ Forall wellFormedService model).
Proof.
  split; [exact parseProtoFile_wellFormed|].
  induction files as [|content files IH].
  - exists []. split; [reflexivity|constructor].
  - destruct IH as (model & Hm & Hwf).
    destruct (parseProtoFile_wellFormed content) as (svcs & Hs & Hwf').
    exists (svcs ++ model). rewrite parseProtoFiles_cons, Hs, Hm.
    split; [reflexivity|]. apply Forall_app. now split.
Qed.

(** X8: on every text and start index the scanner returns a proper
    beginning of the remaining text in which the depth never comes back
    to 0: either the closing brace of the region follows it, or the
    remaining text is never closed and the result is that text without its
    last code unit. *)
Theorem extractBracedContent_region content startIndex :
  let rest := skipn startIndex content in
  let region := extractBracedContent content startIndex in
  staysOpen 1 region /\
  (exists tail, rest = region ++ tail /\ (rest <> [] -> tail <> [])) /\
  ((exists post, rest = region ++ rbrace :: post /\
                 depthAfter 1 region = 1%Z) \/
   (staysOpen 1 rest /\ region = removelast rest)).
Proof.
  intros rest region. subst rest region.
  destruct (scan_cases (skipn startIndex content) (d := 1))
    as [(inner & post & Hsk & Hso & Hda)|Hso]; [lia| |].
  - rewrite (@extractBracedContent_closed _ _ _ _ Hsk Hso Hda), Hsk.
    split; [exact Hso|]. split.
    + exists (rbrace :: post). split; [reflexivity|discriminate].
    + left. now exists post.
  - assert (Hr : extractBracedContent content startIndex =
                 removelast (skipn startIndex content)).
    { destruct (Nat.le_gt_cases startIndex (length content)) as [Hle|Hgt].
      - now apply extractBracedContent_unclosed.
      - rewrite extractBracedContent_beyond, skipn_all2 by lia. reflexivity. }
    rewrite Hr.
    destruct (skipn startIndex content) as [|ch rest] eqn:E.
    + split; [exact Hso|]. split; [|right; now split].
      exists []. split; [reflexivity|intros H; now elim H].
    + destruct (removelast_split (ch :: rest)) as (tail & Hsplit & Hne).
      split; [apply (@staysOpen_prefix 1%Z _ tail); now rewrite <- Hsplit|].
      split; [|right; now split].
      exists tail. split; [exact Hsplit|exact Hne].
Qed.

Lemma extractBracedContent_region_witness :
  exists tail, skipn 1 (str "{a{b}c}d") =
               extractBracedContent (str "{a{b}c}d") 1 ++ tail /\ tail <> [].
Proof.
  destruct (extractBracedContent_region (str "{a{b}c}d") 1)
    as (_ & (tail & Ht & Hne) & _).
  exists tail. split; [exact Ht|]. apply Hne. vm_compute. discriminate.
Defined.

(** X11: the response of the plugin never reports fewer methods than
    services: for every list of texts the method count of the model is at
    least the number of its service names. *)
Theorem response_counts (files : list jsstring) :
  exists model,
    parseProtoFiles files = Some model /\
    length (serviceNames model) <= methodCount model.
Proof.
  destruct (proj2 models_wellFormed files) as (model & Hm & Hwf).
  exists model. split; [exact Hm|].
  unfold serviceNames. rewrite length_map. now apply methodCount_services.
Qed.

(** X12: parsing a list of texts in two parts and appending the models
    gives the model of the whole list, and the method counts add up. *)
Theorem parseProtoFiles_app (files1 files2 : list jsstring) :
  exists model1 model2,
    parseProtoFiles files1 = Some model1 /\
    parseProtoFiles files2 = Some model2 /\
    parseProtoFiles (files1 ++ files2) = Some (model1 ++ model2) /\
    methodCount (model1 ++ model2) = methodCount model1 + methodCount model2.
Proof.
  destruct (parseProtoFiles_for_total files2 []) as [model2 H2].
  fold (parseProtoFiles files2) in H2.
  induction files1 as [|content files1 IH].
  - exists [], model2. repeat split; auto.
  - destruct IH as (model1 & model2' & H1 & H2' & H12 & _).
    rewrite H2 in H2'. inversion H2'; subst model2'.
    destruct (parseProtoFile_total content) as [svcs Hs].
    exists (svcs ++ model1), model2. simpl app.
    rewrite !parseProtoFiles_cons, Hs, H1, H12.
    repeat split; auto.
    + now rewrite app_assoc.
    + apply methodCount_app.
Qed.

(** ** A declared binding is found *)

Lemma canonicalize_lower ch :
  inRange 97%N 122%N (lowerCu ch) = true ->
  canonicalize (lowerCu ch) = canonicalize ch.
Proof.
  unfold canonicalize, lowerCu, inRange.
  destruct (N.leb_spec 65%N ch), (N.leb_spec ch 90%N); simpl;
    destruct (N.leb_spec 97%N ch), (N.leb_spec ch 122%N); simpl;
    destruct (N.leb_spec 97%N (ch + 32)%N), (N.leb_spec (ch + 32)%N 122%N); simpl;
    intros Hx; try discriminate; try reflexivity; lia.
Qed.

(** Under the [i] flag the pattern characters of a lower-case keyword
    match the keyword in any case. *)
Lemma keyword_matches re s0 r :
  ignoreCase re = true ->
  forall keyword pos prev rest c,
    Forall (fun ch => inRange 97%N 122%N (lowerCu ch) = true) keyword ->
    exists prev',
      run re s0 (map (fun ch => One (Chr ch)) (toLowerCase keyword) ++ r)
          pos prev (keyword ++ rest) c =
      run re s0 r (pos + length keyword) prev' rest c.
Proof.
  intros Hi. induction keyword as [|ch keyword IH]; intros pos prev rest c Hk.
  - exists prev. simpl. now rewrite Nat.add_0_r.
  - inversion Hk as [|? ? Hch Hk']; subst.
    destruct (IH (S pos) (Some ch) rest c Hk') as [prev' Hrun].
    exists prev'. simpl. rewrite Hi, (canonicalize_lower _ Hch), N.eqb_refl.
    rewrite Hrun. f_equal. lia.
Qed.

Lemma verb_lower_letters v :
  Forall (fun ch => inRange 97%N 122%N ch = true)
         (toLowerCase (HttpMethod.toString v)).
Proof. destruct v; repeat constructor. Qed.

Lemma space_under_i v ws :
  Forall (fun ch => isSpace ch = true) ws ->
  Forall (fun ch => atomMatches (pathRegex v) space ch = true) ws.
Proof. apply Forall_impl. intros ch H. simpl. now rewrite H. Qed.

Lemma quote_cases q : isQuote q = true -> q = 34%N \/ q = 39%N.
Proof.
  unfold isQuote. intros H. apply orb_true_iff in H.
  destruct H as [H|H]; apply N.eqb_eq in H; auto.
Qed.

Lemma notQuote_under_i v path :
  Forall (fun ch => isQuote ch = false) path ->
  Forall (fun ch => atomMatches (pathRegex v) notQuote ch = true) path.
Proof.
  apply Forall_impl. intros ch H. simpl. rewrite H. simpl.
  assert (Hc : isQuote (canonicalize ch) = false).
  { unfold canonicalize, inRange.
    destruct (N.leb_spec 97%N ch), (N.leb_spec ch 122%N); simpl; try exact H.
    unfold isQuote. apply orb_false_iff. split; apply N.eqb_neq; lia. }
  assert (Hl : isQuote (lowerCu ch) = false).
  { unfold lowerCu.
    destruct (N.leb_spec 65%N ch), (N.leb_spec ch 90%N); simpl; try exact H.
    unfold isQuote. apply orb_false_iff. split; apply N.eqb_neq; lia. }
  now rewrite Hc, Hl.
Qed.

Lemma binding_declared_here v prev keyword ws1 ws2 q1 path q2 post :
  toLowerCase keyword = toLowerCase (HttpMethod.toString v) ->
  Forall (fun ch => isSpace ch = true) ws1 ->
  Forall (fun ch => isSpace ch = true) ws2 ->
  isQuote q1 = true -> isQuote q2 = true -> quoteFree path ->
  exists len opened,
    matchHere (pathRegex v) prev
      (keyword ++ ws1 ++ str ":" ++ ws2 ++ q1 :: path ++ q2 :: post) =
    Some (len, mkCaps opened [(1, path)]).
Proof.
  intros Hk Hws1 Hws2 Hq1 Hq2 [Hne Hpath].
  unfold matchHere.
  set (s0 := keyword ++ ws1 ++ str ":" ++ ws2 ++ q1 :: path ++ q2 :: post)
    at 1.
  assert (Hcap : substring s0
                   (S (S (0 + length keyword + length ws1) + length ws2))
                   (S (S (0 + length keyword + length ws1) + length ws2) +
                    length path) = path).
  { unfold s0.
    replace (keyword ++ ws1 ++ str ":" ++ ws2 ++ q1 :: path ++ q2 :: post)
      with ((keyword ++ ws1 ++ str ":" ++ ws2 ++ [q1]) ++ path ++ (q2 :: post))
      by (now rewrite <- !app_assoc).
    replace (S (S (0 + length keyword + length ws1) + length ws2))
      with (length (keyword ++ ws1 ++ str ":" ++ ws2 ++ [q1]))
      by (rewrite !length_app; simpl; lia).
    now apply substring_middle. }
  assert (Hkw : Forall (fun ch => inRange 97%N 122%N (lowerCu ch) = true) keyword).
  { pose proof (verb_lower_letters v) as Hv. rewrite <- Hk in Hv.
    unfold toLowerCase in Hv. now rewrite Forall_map in Hv. }
  change (source (pathRegex v))
    with (map (fun ch => One (Chr ch)) (toLowerCase (HttpMethod.toString v))
          ++ valueTail).
  rewrite <- Hk.
  destruct (keyword_matches (pathRegex v) s0 valueTail eq_refl
              0 prev (ws1 ++ str ":" ++ ws2 ++ q1 :: path ++ q2 :: post)
              noCaps Hkw) as [prev0 Hrun].
  rewrite Hrun. clear Hrun.
  do 2 eexists. cbn [valueTail app lit str map run].
  apply greedy_takes;
    [now apply space_under_i|reflexivity|discriminate|]. intros prev1.
  cbn -[greedy Nat.add atomMatches].
  change (atomMatches (pathRegex v) (Chr 58%N) 58%N) with true. cbv iota.
  apply greedy_takes; [now apply space_under_i| |discriminate|].
  { destruct (quote_cases _ Hq1) as [->| ->]; reflexivity. }
  intros prev2. cbn -[greedy Nat.add atomMatches].
  assert (Hq1' : atomMatches (pathRegex v) quote q1 = true)
    by (simpl; now rewrite Hq1).
  rewrite Hq1'.
  apply greedy_takes; [now apply notQuote_under_i| |auto|].
  { simpl. now rewrite Hq2. }
  intros prev3. cbn -[Nat.add atomMatches substring].
  assert (Hq2' : atomMatches (pathRegex v) quote q2 = true)
    by (simpl; now rewrite Hq2).
  rewrite Hq2'. rewrite Hcap. reflexivity.
Qed.

Lemma httpMethods_split v :
  exists before after, httpMethods = before ++ v :: after.
Proof.
  destruct v;
    [exists [] | exists [GET] | exists [GET; POST] | exists [GET; POST; PUT]
     | exists [GET; POST; PUT; PATCH]];
    eexists; reflexivity.
Qed.

(** X13: a declared binding is found.  When the options block holds the
    marker and, at the leftmost place where the pattern of the verb [v]
    matches, the verb keyword in any case, optional white space, a colon,
    optional white space and a non-empty path without quotes between two
    quotes (double or single), and no verb that comes before [v] in the
    order matches, the binding returned has the verb [v] and that path. *)
Theorem binding_declared v pre keyword ws1 ws2 q1 path q2 post :
  includes marker
    (pre ++ keyword ++ ws1 ++ str ":" ++ ws2 ++ q1 :: path ++ q2 :: post)
  = true ->
  toLowerCase keyword = toLowerCase (HttpMethod.toString v) ->
  Forall (fun ch => isSpace ch = true) ws1 ->
  Forall (fun ch => isSpace ch = true) ws2 ->
  isQuote q1 = true -> isQuote q2 = true -> quoteFree path ->
  (forall before after u,
      httpMethods = before ++ v :: after -> In u before ->
      strMatch
        (pre ++ keyword ++ ws1 ++ str ":" ++ ws2 ++ q1 :: path ++ q2 :: post)
        (pathRegex u) = None) ->
  (forall j, j < length pre ->
     matchAt (pathRegex v)
       (pre ++ keyword ++ ws1 ++ str ":" ++ ws2 ++ q1 :: path ++ q2 :: post) j
     = None) ->
  exists b,
    parseHttpAnnotation
      (pre ++ keyword ++ ws1 ++ str ":" ++ ws2 ++ q1 :: path ++ q2 :: post)
    = Some (HttpAnnotation.mk v path b).
Proof.
  intros Hmk Hk Hws1 Hws2 Hq1 Hq2 Hpath Hbefore Hnone.
  destruct (@binding_declared_here v
              (charBefore
                 (pre ++ keyword ++ ws1 ++ str ":" ++ ws2 ++
                  q1 :: path ++ q2 :: post) (length pre))
              keyword ws1 ws2 q1 path q2 post Hk Hws1 Hws2 Hq1 Hq2 Hpath)
    as (len & opened & Hm).
  rewrite <- matchAt_app in Hm.
  apply strMatch_at in Hm; [|reflexivity|exact Hnone].
  destruct Hm as (m & Hm & _ & Hgr).
  destruct (httpMethods_split v) as (before & after & Hsplit).
  rewrite (parseHttpAnnotation_marker _ Hmk), Hsplit.
  erewrite parseHttpAnnotation_for_first;
    [|intros u Hu; now apply (Hbefore before after)|exact Hm].
  unfold capture at 1, group. rewrite Hgr. simpl. eauto.
Qed.

Lemma before_POST before after u :
  httpMethods = before ++ POST :: after -> In u before -> u = GET.
Proof.
  intros Heq Hin. unfold httpMethods in Heq.
  destruct before as [|x1 [|x2 [|x3 [|x4 [|x5 [|x6 before]]]]]];
    simpl in Heq; inversion Heq; subst.
  destruct Hin as [<-|[]]. reflexivity.
Qed.

Lemma binding_declared_witness :
  exists b,
    parseHttpAnnotation
      (str "option (google.api.http) = { " ++ str "Post" ++ [] ++ str ":" ++
       str " " ++ 39%N :: str "/v1/users" ++ 34%N :: str " }")
    = Some (HttpAnnotation.mk POST (str "/v1/users") b).
Proof.
  apply binding_declared.
  - reflexivity.
  - reflexivity.
  - constructor.
  - repeat constructor.
  - reflexivity.
  - reflexivity.
  - split; [discriminate|repeat constructor].
  - intros before after u Heq Hin.
    rewrite (@before_POST _ _ _ Heq Hin). vm_compute. reflexivity.
  - apply noMatchBelow_spec. vm_compute. reflexivity.
Defined.

Example test_getConnectPath :
  getConnectPath
    (ParsedService.mk (str "users.v1") (str "UserService")
       (str "users.v1.UserService") [])
    (ParsedMethod.mk (str "GetUser") (str "GetUserRequest")
       (str "GetUserResponse") GET (str "/v1/users/{user_id}") None)
  = str "/users.v1.UserService/GetUser".
Proof. reflexivity. Qed.

(** ** The package declaration, told without the matcher *)

(** What a match of the package pattern consists of. *)
Lemma package_denoted prev s len c :
  matchHere packageRegex prev s = Some (len, c) ->
  atLineStart packageRegex prev = true /\
  exists ws ws1 name ws2 post,
    s = ws ++ str "package" ++ ws1 ++ name ++ ws2 ++ str ";" ++ post /\
    Forall (fun ch => isSpace ch = true) ws /\
    Forall (fun ch => isSpace ch = true) ws1 /\ ws1 <> [] /\
    Forall (fun ch => isWordOrDot ch = true) name /\ name <> [] /\
    Forall (fun ch => isSpace ch = true) ws2 /\
    closed c = [(1, name)].
Proof.
  intros H. apply matchHere_denotes in H.
  cbn -[atomMatches N.eqb atLineStart] in H. unpack. subst.
  repeat match goal with
         | H : atomMatches _ (Chr _) _ = true |- _ =>
             apply chr_plain in H; [subst|reflexivity]
         end.
  split; [assumption|].
  eexists _, _, _, _, _. split; [reflexivity|].
  repeat split; try assumption;
    (eapply cls_plain; cycle 1; [eassumption|reflexivity]).
Qed.

(** A match of the package pattern begins at a line start and is a
    declaration. *)
Lemma matchAt_package_declared content j len c :
  matchAt packageRegex content j = Some (len, c) ->
  exists name, closed c = [(1, name)] /\ packageDeclaredAt content j name.
Proof.
  unfold matchAt. intros H. apply package_denoted in H.
  destruct H as (Hline & ws & ws1 & name & ws2 & post & Hs & Hws & Hws1 &
                 Hne1 & Hname & Hne & Hws2 & Hcl).
  exists name. split; [exact Hcl|]. split.
  - destruct j as [|k]; [now left|]. right. simpl in Hline.
    destruct (nth_error content k) as [ch|] eqn:En.
    + exists k, ch. auto.
    + apply nth_error_None in En. rewrite skipn_all2 in Hs by lia.
      destruct ws; discriminate.
  - exists ws, ws1, ws2, post. auto 10.
Qed.

(** A declaration is matched by the package pattern, with its name as the
    group. *)
Lemma declared_matchAt_package content j name :
  packageDeclaredAt content j name ->
  exists len opened,
    matchAt packageRegex content j = Some (len, mkCaps opened [(1, name)]).
Proof.
  intros (Hline & ws & ws1 & ws2 & post & Hs & Hws & Hws1 & Hne1 & Hname &
          Hne & Hws2).
  unfold matchAt. rewrite Hs. apply package_declared_here; try assumption.
  destruct Hline as [->|(k & ch & -> & Hn & Hlt)]; [reflexivity|].
  simpl. now rewrite Hn.
Qed.

Lemma declared_in_text content j name :
  packageDeclaredAt content j name -> j <= length content.
Proof.
  intros (_ & ws & ws1 & ws2 & post & Hs & _).
  destruct (Nat.le_gt_cases j (length content)) as [Hle|Hgt]; [exact Hle|].
  rewrite skipn_all2 in Hs by lia. destruct ws; discriminate.
Qed.

Lemma extractPackageName_first content j name :
  packageDeclaredAt content j name ->
  (forall j' name', j' < j -> ~ packageDeclaredAt content j' name') ->
  extractPackageName content = name.
Proof.
  intros Hd Hfirst. pose proof (declared_in_text Hd) as Hj.
  destruct (declared_matchAt_package Hd) as (len & opened & Hm).
  pose proof Hm as Hc.
  apply strMatch_complete in Hc; [|reflexivity|exact Hj].
  destruct Hc as (m & Hs & Hi).
  pose proof Hs as Hl. apply strMatch_leftmost in Hl; [|reflexivity].
  destruct Hl as ((c' & Hc' & Hgr) & _).
  assert (Hidx : index m = j).
  { destruct (Nat.eq_dec (index m) j) as [|Hne]; [assumption|].
    apply matchAt_package_declared in Hc'. destruct Hc' as (name' & _ & Hd').
    elim (Hfirst (index m) name'); [lia|exact Hd']. }
  rewrite Hidx, Hm in Hc'. inversion Hc'; subst c'.
  unfold extractPackageName. rewrite Hs. unfold capture, group.
  now rewrite Hgr.
Qed.

Lemma extractPackageName_absent content :
  (forall j name, ~ packageDeclaredAt content j name) ->
  extractPackageName content = [].
Proof.
  intros Hnone. unfold extractPackageName.
  rewrite (strMatch_none packageRegex content eq_refl); [reflexivity|].
  intros i _. destruct (matchAt packageRegex content i) as [[len c]|] eqn:E;
    [|reflexivity].
  apply matchAt_package_declared in E. destruct E as (name & _ & Hd).
  now elim (Hnone i name).
Qed.

Lemma extractPackageName_from_declaration content :
  extractPackageName content <> [] ->
  exists j,
    packageDeclaredAt content j (extractPackageName content) /\
    forall j' name', j' < j -> ~ packageDeclaredAt content j' name'.
Proof.
  unfold extractPackageName.
  destruct (strMatch content packageRegex) as [m|] eqn:E;
    [|intros H; now elim H].
  intros _. apply strMatch_leftmost in E; [|reflexivity].
  destruct E as ((c & Hc & Hgr) & Hbefore).
  exists (index m). split.
  - apply matchAt_package_declared in Hc. destruct Hc as (name & Hcl & Hd).
    unfold capture, group. now rewrite Hgr, Hcl.
  - intros j' name' Hlt Hd. apply declared_matchAt_package in Hd.
    destruct Hd as (len & opened & Hm). rewrite (Hbefore j' Hlt) in Hm.
    discriminate.
Qed.

(** C5: the package name is the name of the first package declaration that
    stands at a line start: a declaration [package <dotted.name>;] begins
    at the start of the text or after a line terminator, with white space
    only before the keyword.  The name of the declaration that begins
    first is returned; the empty string is returned when the text holds no
    such declaration, and a name is returned only from such a declaration,
    so a declaration that does not stand at a line start is passed over.
    Every service of the model carries that package name, and its full
    name is [<packageName>.<serviceName>] when the package name is not
    empty and the bare service name when it is. *)
Theorem package_and_full_name :
  (forall content j name,
      packageDeclaredAt content j name ->
      (forall j' name', j' < j -> ~ packageDeclaredAt content j' name') ->
      extractPackageName content = name) /\
  (forall content,
      (forall j name, ~ packageDeclaredAt content j name) ->
      extractPackageName content = []) /\
  (forall content,
      extractPackageName content <> [] ->
      exists j,
        packageDeclaredAt content j (extractPackageName content) /\
        forall j' name', j' < j -> ~ packageDeclaredAt content j' name') /\
  (forall content,
      exists svcs,
        parseProtoFile content = Some svcs /\
        forall s, In s svcs ->
          ParsedService.packageName s = extractPackageName content /\
          ParsedService.fullName s =
          match extractPackageName content with
          | [] => ParsedService.serviceName s
          | _ :: _ =>
              extractPackageName content ++ str "." ++ ParsedService.serviceName s
          end) /\
  extractPackageName (str "// package foo;" ++ [10%N] ++ str "package bar;")
    = str "bar" /\
  extractPackageName (str "// package foo;") = [] /\
  (exists s,
      parseProtoFile Samples.getUser = Some [s] /\
      ParsedService.packageName s = str "users.v1" /\
      ParsedService.serviceName s = str "UserService" /\
      ParsedService.fullName s = str "users.v1.UserService") /\
  (exists s,
      parseProtoFile Samples.noPackage = Some [s] /\
      ParsedService.packageName s = [] /\
      ParsedService.fullName s = str "S").
Proof.
  split; [exact extractPackageName_first|].
  split; [exact extractPackageName_absent|].
  split; [exact extractPackageName_from_declaration|].
  split; [|split; [reflexivity|split; [reflexivity|split]]].
  - intros content.
    destruct (parseProtoFile_entries content) as (sms & svcs & _ & Hp & HF).
    exists svcs. split; [exact Hp|]. intros s Hin.
    eapply Forall2_In_r in Hin; [|exact HF].
    destruct Hin as (sm & _ & Hpk & Hsn & Hfn & _).
    split; [exact Hpk|]. rewrite Hfn, Hsn. unfold fullNameOf.
    destruct (extractPackageName content); reflexivity.
  - eexists. split; [vm_compute; reflexivity|repeat split; reflexivity].
  - eexists. split; [vm_compute; reflexivity|repeat split; reflexivity].
Qed.

Lemma package_and_full_name_witness :
  extractPackageName
    (str "// package foo;" ++ [10%N] ++ str "  package users.v1 ; service")
  = str "users.v1".
Proof.
  apply (proj1 package_and_full_name
           (str "// package foo;" ++ [10%N] ++
            str "  package users.v1 ; service") 16).
  - split.
    + right. exists 15, 10%N. repeat split; reflexivity.
    + exists (str "  "), (str " "), (str " "), (str " service").
      split; [reflexivity|]. repeat split; try discriminate;
        repeat constructor.
  - intros j' name' Hlt Hd. apply declared_matchAt_package in Hd.
    destruct Hd as (len & opened & Hm).
    assert (Hnone : noMatchBelow packageRegex
                      (str "// package foo;" ++ [10%N] ++
                       str "  package users.v1 ; service") 16 = true)
      by (vm_compute; reflexivity).
    rewrite (@noMatchBelow_spec _ _ _ Hnone j' Hlt) in Hm. discriminate.
Defined.

(** ** The arguments of the local mode, case by case *)

Lemma main_protoDir_decided flags d rest :
  Forall (fun a => startsWith (str "-") a = true) flags ->
  startsWith (str "-") d = false ->
  main_protoDir (flags ++ d :: rest) =
  match d with [] => str "./proto" | _ :: _ => d end.
Proof.
  intros Hf Hd. unfold main_protoDir.
  rewrite find_first_positional by assumption. now destruct d.
Qed.

Lemma outIndex_not_absent (pre : list jsstring) :
  (Z.of_nat (length pre) =? -1)%Z = false.
Proof. apply Z.eqb_neq. lia. Qed.

Lemma main_outputDir_out_any pre d post :
  ~ In (str "--out") pre ->
  main_outputDir (pre ++ str "--out" :: d :: post) =
  match d with [] => str "./generated" | _ :: _ => d end.
Proof.
  intros Hpre. unfold main_outputDir, main_outIndex, indexOf.
  rewrite !indexOfFrom_first by exact Hpre.
  rewrite !Z.add_0_l, !outIndex_not_absent. cbn [negb].
  rewrite outIndex_not_absent. cbn [negb].
  rewrite elementAt_after. now destruct d.
Qed.

Lemma main_outputDir_short_any pre d post :
  ~ In (str "-o") pre -> ~ In (str "--out") (pre ++ str "-o" :: d :: post) ->
  main_outputDir (pre ++ str "-o" :: d :: post) =
  match d with [] => str "./generated" | _ :: _ => d end.
Proof.
  intros Hpre Hout. unfold main_outputDir, main_outIndex, indexOf.
  rewrite !(@indexOfFrom_absent _ _ 0%Z Hout).
  rewrite !indexOfFrom_first by exact Hpre.
  rewrite !Z.add_0_l. cbn [Z.eqb negb Pos.eqb].
  rewrite outIndex_not_absent. cbn [negb].
  rewrite elementAt_after. now destruct d.
Qed.

Lemma elementAt_beyond (pre : list jsstring) a :
  elementAt (pre ++ [a]) (Z.of_nat (length pre) + 1) = None.
Proof.
  unfold elementAt.
  destruct (Z.ltb_spec (Z.of_nat (length pre) + 1) 0); [lia|].
  apply nth_error_None. rewrite length_app. simpl. lia.
Qed.

Lemma main_outputDir_short_trailing pre :
  ~ In (str "-o") pre -> ~ In (str "--out") pre ->
  main_outputDir (pre ++ [str "-o"]) = str "./generated".
Proof.
  intros Hpre Hout.
  assert (Hout' : ~ In (str "--out") (pre ++ [str "-o"])).
  { intros Hin. apply in_app_or in Hin. destruct Hin as [Hin|[Hin|[]]];
      [now apply Hout|discriminate]. }
  unfold main_outputDir, main_outIndex, indexOf.
  rewrite !(@indexOfFrom_absent _ _ 0%Z Hout').
  rewrite !indexOfFrom_first by exact Hpre.
  rewrite !Z.add_0_l. cbn [Z.eqb negb Pos.eqb].
  rewrite outIndex_not_absent. cbn [negb].
  now rewrite elementAt_beyond.
Qed.

(** X9: in the local mode of [main] the proto directory is decided by the
    first argument that does not start with a dash: it is that argument
    when it is not empty, and [./proto] when it is the empty string,
    whatever comes after it, or when every argument starts with a dash.
    The directory given after [--out] is such an argument: when only
    options come before [--out] and it is not empty, it is taken as the
    proto directory as well as the output directory. *)
Theorem main_protoDir_first_positional :
  (forall flags d rest,
      Forall (fun a => startsWith (str "-") a = true) flags ->
      startsWith (str "-") d = false ->
      main_protoDir (flags ++ d :: rest) =
      match d with [] => str "./proto" | _ :: _ => d end) /\
  (forall args,
      Forall (fun a => startsWith (str "-") a = true) args ->
      main_protoDir args = str "./proto") /\
  (forall flags d rest,
      Forall (fun a => startsWith (str "-") a = true) flags ->
      ~ In (str "--out") flags ->
      startsWith (str "-") d = false -> d <> [] ->
      main_protoDir (flags ++ str "--out" :: d :: rest) = d /\
      main_outputDir (flags ++ str "--out" :: d :: rest) = d).
Proof.
  split; [exact main_protoDir_decided|].
  split; [exact main_protoDir_default|].
  intros flags d rest Hf Hout Hd Hne. split.
  - change (flags ++ str "--out" :: d :: rest)
      with (flags ++ [str "--out"] ++ d :: rest).
    rewrite app_assoc. apply main_protoDir_first; [|exact Hd|exact Hne].
    apply Forall_app. split; [exact Hf|]. now repeat constructor.
  - now apply main_outputDir_out.
Qed.

Lemma main_protoDir_first_positional_witness :
  main_protoDir ([str "--local"] ++ [] :: [str "dir"]) = str "./proto" /\
  main_protoDir ([str "--local"] ++ str "--out" :: str "gen" :: []) = str "gen" /\
  main_outputDir ([str "--local"] ++ str "--out" :: str "gen" :: []) = str "gen".
Proof.
  split.
  - apply (proj1 main_protoDir_first_positional [str "--local"] [] [str "dir"]).
    + repeat constructor.
    + reflexivity.
  - apply (proj2 (proj2 main_protoDir_first_positional)).
    + repeat constructor.
    + intros [H|[]]. discriminate.
    + reflexivity.
    + discriminate.
Defined.

(** X10: in the local mode of [main] the output directory is decided by
    the first [--out] when there is one, and by the first [-o] otherwise:
    it is the argument after that option when there is one and it is not
    empty, whatever it is, and [./generated] when that argument is missing
    or empty, or when neither option is given.  An [-o] is not looked at
    when [--out] is given, even when [--out] has no directory. *)
Theorem main_outputDir_options :
  (forall pre d post,
      ~ In (str "--out") pre ->
      main_outputDir (pre ++ str "--out" :: d :: post) =
      match d with [] => str "./generated" | _ :: _ => d end) /\
  (forall pre,
      ~ In (str "--out") pre ->
      main_outputDir (pre ++ [str "--out"]) = str "./generated") /\
  (forall pre d post,
      ~ In (str "-o") pre ->
      ~ In (str "--out") (pre ++ str "-o" :: d :: post) ->
      main_outputDir (pre ++ str "-o" :: d :: post) =
      match d with [] => str "./generated" | _ :: _ => d end) /\
  (forall pre,
      ~ In (str "-o") pre -> ~ In (str "--out") pre ->
      main_outputDir (pre ++ [str "-o"]) = str "./generated") /\
  (forall args,
      ~ In (str "--out") args -> ~ In (str "-o") args ->
      main_outputDir args = str "./generated").
Proof.
  split; [exact main_outputDir_out_any|].
  split; [exact main_outputDir_trailing|].
  split; [exact main_outputDir_short_any|].
  split; [exact main_outputDir_short_trailing|exact main_outputDir_default].
Qed.

Lemma main_outputDir_options_witness :
  main_outputDir ([str "--local"] ++ str "-o" :: [] :: [str "x"]) =
    str "./generated" /\
  main_outputDir ([str "--local"; str "-o"; str "a"] ++ [str "--out"]) =
    str "./generated".
Proof.
  split.
  - apply (proj1 (proj2 (proj2 main_outputDir_options))
             [str "--local"] [] [str "x"]).
    + intros [H|[]]. discriminate.
    + intros [H|[H|[H|[H|[]]]]]; discriminate.
  - apply (proj1 (proj2 main_outputDir_options)).
    intros [H|[H|[H|[]]]]; discriminate.
Defined.
